(** * STL examples: sliding-window median tracker and LRU cache

    Shallow embedding of [stl_examples/sliding_window_median.cpp] and
    [stl_examples/lru_cache.cpp], with the properties of both components. *)

From Stdlib Require Import ZArith List Lia.
From Stdlib Require Import Floats.SpecFloat.
From stdpp Require Import base option list sorting gmap strings.

(** ** Outcomes of code that can run into undefined behaviour *)

(** The two ways in which the modelled code can leave defined behaviour. *)
Inductive fault : Type :=
  | deref_invalid   (* dereferencing an iterator that designates no element *)
  | back_of_empty.  (* [list::back] on an empty list *)

Inductive res (A : Type) : Type :=
  | Done (a : A)
  | Undefined (f : fault).
Arguments Done {A} a.
Arguments Undefined {A} f.

Global Instance res_ret : MRet res := λ A a, Done a.
Global Instance res_bind : MBind res := λ A B k r,
  match r with
  | Done a => k a
  | Undefined f => Undefined f
  end.

(** ** [double]: IEEE 754 binary64 *)

Module Double.
Definition prec : Z := 53.
Definition emax : Z := 1024.

(** Conversion of an integer ([long long] or [int]) to [double], rounding to
    nearest-even. *)
Definition of_Z (z : Z) : spec_float := binary_normalize prec emax z 0 false.

Definition add : spec_float → spec_float → spec_float := SFadd prec emax.
Definition div : spec_float → spec_float → spec_float := SFdiv prec emax.

(** The literal [2.0]. *)
Definition two : spec_float := S754_finite false 4503599627370496 (-51).
End Double.

(** ** [std::multiset<long long>] as an ascending sequence

    An iterator is a position in the sequence; [end()] is the position one
    past the last element.  The values are only compared and copied, never
    computed with, so they are integers without wrap-around. *)

Module MSet.
(** [insert(x)]: after the elements that are not greater than [x]. *)
Fixpoint insert (x : Z) (l : list Z) : list Z :=
  match l with
  | [] => [x]
  | y :: l' => if (x <? y)%Z then x :: y :: l' else y :: insert x l'
  end.

(** [find(x)]: the position of an element equal to [x], [None] for
    [end()]. *)
Fixpoint find (x : Z) (l : list Z) : option nat :=
  match l with
  | [] => None
  | y :: l' => if (y =? x)%Z then Some 0 else S <$> find x l'
  end.

(** [erase(it)] *)
Definition erase (it : nat) (l : list Z) : list Z := delete it l.

(** [begin()] and [prev(end())] *)
Definition begin (l : list Z) : nat := 0.
Definition prev_end (l : list Z) : nat := pred (length l).

(** [*it] *)
Definition deref (it : nat) (l : list Z) : res Z :=
  match l !! it with
  | Some v => Done v
  | None => Undefined deref_invalid
  end.
End MSet.

(** ** [class SlidingMedian] *)

Record SlidingMedian : Type := mkSM {
  lo : list Z;   (* max side (lower half) *)
  hi : list Z    (* min side (upper half) *)
}.

Definition SM_new : SlidingMedian := mkSM [] [].

(** Body of the first loop of [balance]: the greatest element of [lo] goes
    to [hi].  The loop guard makes [lo] non-empty, see [move_max_to_hi_defined]. *)
Definition move_max_to_hi (s : SlidingMedian) : SlidingMedian :=
  let it := MSet.prev_end (lo s) in
  match lo s !! it with
  | Some v => mkSM (MSet.erase it (lo s)) (MSet.insert v (hi s))
  | None => s
  end.

(** Body of the second loop of [balance]: the least element of [hi] goes to
    [lo].  The loop guard makes [hi] non-empty, see [move_min_to_lo_defined]. *)
Definition move_min_to_lo (s : SlidingMedian) : SlidingMedian :=
  let it := MSet.begin (hi s) in
  match hi s !! it with
  | Some v => mkSM (MSet.insert v (lo s)) (MSet.erase it (hi s))
  | None => s
  end.

(** [while (lo.size() > hi.size() + 1) ...], returning the number of
    iterations made together with the state. *)
Fixpoint shrink_lo (fuel : nat) (s : SlidingMedian) : nat * SlidingMedian :=
  if decide (length (hi s) + 1 < length (lo s)) then
    match fuel with
    | O => (0, s)
    | S fuel' =>
        let '(n, s') := shrink_lo fuel' (move_max_to_hi s) in (S n, s')
    end
  else (0, s).

(** [while (lo.size() < hi.size()) ...] *)
Fixpoint grow_lo (fuel : nat) (s : SlidingMedian) : nat * SlidingMedian :=
  if decide (length (lo s) < length (hi s)) then
    match fuel with
    | O => (0, s)
    | S fuel' =>
        let '(n, s') := grow_lo fuel' (move_min_to_lo s) in (S n, s')
    end
  else (0, s).

(** [balance()], with the number of elements moved.  Each iteration of the
    first loop shortens [lo] and each iteration of the second shortens [hi],
    so the lengths bound the iterations: see [shrink_lo_exit] and
    [grow_lo_exit]. *)
Definition balance_run (s : SlidingMedian) : nat * SlidingMedian :=
  let '(n1, s1) := shrink_lo (length (lo s)) s in
  let '(n2, s2) := grow_lo (length (hi s1)) s1 in
  (n1 + n2, s2).

Definition balance (s : SlidingMedian) : SlidingMedian := (balance_run s).2.

(** The first statement of [insert].  The second operand of [||] is
    evaluated on a non-empty [lo] only, where [prev(end())] designates an
    element. *)
Definition place (x : Z) (s : SlidingMedian) : SlidingMedian :=
  if decide (lo s = []) then mkSM (MSet.insert x (lo s)) (hi s)
  else
    match lo s !! MSet.prev_end (lo s) with
    | Some m =>
        if (x <=? m)%Z then mkSM (MSet.insert x (lo s)) (hi s)
        else mkSM (lo s) (MSet.insert x (hi s))
    | None => s
    end.

Definition insert (x : Z) (s : SlidingMedian) : SlidingMedian :=
  balance (place x s).

(** The first statement of [erase]. *)
Definition remove_one (x : Z) (s : SlidingMedian) : SlidingMedian :=
  match MSet.find x (lo s) with
  | Some it => mkSM (MSet.erase it (lo s)) (hi s)
  | None =>
      match MSet.find x (hi s) with
      | Some it => mkSM (lo s) (MSet.erase it (hi s))
      | None => s
      end
  end.

Definition erase (x : Z) (s : SlidingMedian) : SlidingMedian :=
  balance (remove_one x s).

Definition median (s : SlidingMedian) : res spec_float :=
  if decide (lo s = [] ∧ hi s = []) then Done (Double.of_Z 0)
  else if decide (length (hi s) < length (lo s)) then
    v ← MSet.deref (MSet.prev_end (lo s)) (lo s);
    Done (Double.of_Z v)
  else
    a ← MSet.deref (MSet.prev_end (lo s)) (lo s);
    b ← MSet.deref (MSet.begin (hi s)) (hi s);
    Done (Double.div (Double.add (Double.of_Z a) (Double.of_Z b)) Double.two).

(** *** The demonstration loop of [main] *)

(** [nums[i]] for an [int] index: no bounds check in the source. *)
Definition at_index (nums : list Z) (i : Z) : res Z :=
  if decide (0 ≤ i)%Z then
    match nums !! Z.to_nat i with
    | Some v => Done v
    | None => Undefined deref_invalid
    end
  else Undefined deref_invalid.

Definition window_step (nums : list Z) (k : Z)
    (acc : res (SlidingMedian * list spec_float)) (i : nat)
  : res (SlidingMedian * list spec_float) :=
  '(win, medians) ← acc;
  x ← at_index nums (Z.of_nat i);
  let win := insert x win in
  if decide (k - 1 ≤ Z.of_nat i)%Z then
    m ← median win;
    y ← at_index nums (Z.of_nat i - k + 1);
    Done (erase y win, medians ++ [m])
  else Done (win, medians).

Definition window_medians (nums : list Z) (k : Z) : res (list spec_float) :=
  '(_, medians) ← fold_left (window_step nums k) (seq 0 (length nums))
                     (Done (SM_new, []));
  Done medians.

Definition demo_nums : list Z := [1; 3; -1; -3; 5; 3; 6; 7]%Z.
Definition demo_k : Z := 3.

(** *** Sequences of operations *)

Inductive sm_op : Type :=
  | Insert (x : Z)
  | Erase (x : Z).

Definition sm_apply (s : SlidingMedian) (o : sm_op) : SlidingMedian :=
  match o with
  | Insert x => insert x s
  | Erase x => erase x s
  end.

Definition sm_run (ops : list sm_op) : SlidingMedian :=
  fold_left sm_apply ops SM_new.

(** ** [class LRUCache] *)

(** [int] is 32 bits wide; [to_int] is the conversion [(int)n] of a size. *)
Definition INT_MAX : Z := 2 ^ 31 - 1.
Definition to_int (z : Z) : Z := ((z + 2 ^ 31) mod 2 ^ 32 - 2 ^ 31)%Z.

(** The value that [get] returns for a key that is not cached. *)
Definition NOT_FOUND : Z := -1.

(** [std::list<pair<int,int>>]: a sequence of nodes, front first.  A node
    keeps its identity while it is in the list, wherever [splice] moves it;
    an iterator [ListIt] is the identity of the node it designates.
    Identity [0] belongs to no node: it stands for [end()]. *)
Definition ListIt : Type := nat.

Module DList.
Definition node : Type := ListIt * (Z * Z).

(** [*it] *)
Fixpoint deref (it : ListIt) (l : list node) : res (Z * Z) :=
  match l with
  | [] => Undefined deref_invalid
  | n :: l' => if decide (n.1 = it) then Done n.2 else deref it l'
  end.

Definition unlink (it : ListIt) (l : list node) : list node :=
  filter (λ n, n.1 ≠ it) l.

(** [l.splice(l.begin(), l, it)]: the node of [it] becomes the first. *)
Definition splice_front (it : ListIt) (l : list node) : res (list node) :=
  kv ← deref it l;
  Done ((it, kv) :: unlink it l).

(** [it->second = v] *)
Definition assign_second (it : ListIt) (v : Z) (l : list node)
  : res (list node) :=
  _ ← deref it l;
  Done ((λ n : node, if decide (n.1 = it) then (n.1, (n.2.1, v)) else n) <$> l).

(** The identity of a newly allocated node: one that no node of the list
    has. *)
Definition fresh (l : list node) : ListIt := S (max_list (l.*1)).

Definition emplace_front (kv : Z * Z) (l : list node) : list node :=
  (fresh l, kv) :: l.

Definition begin (l : list node) : ListIt :=
  match l with
  | n :: _ => n.1
  | [] => 0
  end.

Definition back (l : list node) : res (Z * Z) :=
  match last l with
  | Some n => Done n.2
  | None => Undefined back_of_empty
  end.

Definition pop_back (l : list node) : list node := removelast l.

Definition keys (l : list node) : list Z := (λ n : node, n.2.1) <$> l.
End DList.

Record LRUCache : Type := mkLRU {
  cap : Z;
  dll : list DList.node;
  mp : gmap Z ListIt
}.

Definition LRU_new (capacity : Z) : LRUCache := mkLRU capacity [] ∅.

Definition get (key : Z) (c : LRUCache) : res (Z * LRUCache) :=
  match mp c !! key with
  | None => Done (NOT_FOUND, c)
  | Some it =>
      l ← DList.splice_front it (dll c);
      kv ← DList.deref it l;
      Done (kv.2, mkLRU (cap c) l (mp c))
  end.

(** The eviction branch of [put]. *)
Definition evict (c : LRUCache) : res LRUCache :=
  last ← DList.back (dll c);
  Done (mkLRU (cap c) (DList.pop_back (dll c)) (delete last.1 (mp c))).

Definition put (key value : Z) (c : LRUCache) : res LRUCache :=
  match mp c !! key with
  | Some it =>
      l ← DList.assign_second it value (dll c);
      l' ← DList.splice_front it l;
      Done (mkLRU (cap c) l' (mp c))
  | None =>
      c ← (if decide (to_int (Z.of_nat (length (dll c))) = cap c)
           then evict c else Done c);
      let l := DList.emplace_front (key, value) (dll c) in
      Done (mkLRU (cap c) l (<[key := DList.begin l]> (mp c)))
  end.

(** *** Sequences of cache operations *)

Inductive lru_op : Type :=
  | Get (key : Z)
  | Put (key value : Z).

(** One operation; the values returned by [get] are collected. *)
Definition lru_apply (acc : res (list Z * LRUCache)) (o : lru_op)
  : res (list Z * LRUCache) :=
  '(out, c) ← acc;
  match o with
  | Get key => '(v, c') ← get key c; Done (out ++ [v], c')
  | Put key value => c' ← put key value c; Done (out, c')
  end.

Definition lru_run (ops : list lru_op) (c : LRUCache) : res (list Z * LRUCache) :=
  fold_left lru_apply ops (Done ([], c)).

(** ** Predicates of the specification *)

(** The greatest and the least value of a multiset. *)
Definition greatest (l : list Z) (m : Z) : Prop :=
  m ∈ l ∧ ∀ y, y ∈ l → (y ≤ m)%Z.
Definition least (l : list Z) (m : Z) : Prop :=
  m ∈ l ∧ ∀ y, y ∈ l → (m ≤ y)%Z.

(** Every value of [lo] is below every value of [hi], and both are
    ascending. *)
Definition ordered (s : SlidingMedian) : Prop :=
  StronglySorted Z.le (lo s ++ hi s).

Definition sizes_ok (s : SlidingMedian) : Prop :=
  length (lo s) = length (hi s) ∨ length (lo s) = length (hi s) + 1.

Definition sm_inv (s : SlidingMedian) : Prop := ordered s ∧ sizes_ok s.

(** The index of a recency list: which node holds which key. *)
Definition index_of (l : list DList.node) : list (Z * ListIt) :=
  (λ n : DList.node, (n.2.1, n.1)) <$> l.

(** The structure of a cache: nodes and keys are not repeated, and the index
    maps exactly the keys of the list, each to its node. *)
Record lru_wf (c : LRUCache) : Prop := mk_lru_wf {
  wf_nodes : NoDup (dll c).*1;
  wf_keys : NoDup (DList.keys (dll c));
  wf_index : mp c = list_to_map (index_of (dll c))
}.

(** The test of the eviction branch of [put]. *)
Definition at_capacity (c : LRUCache) : Prop :=
  to_int (Z.of_nat (length (dll c))) = cap c.

(** ** Reference models *)

(** The values that a sequence of tracker operations leaves active: [insert]
    adds one occurrence, [erase] takes one occurrence away when there is
    one. *)
Fixpoint remove_first (x : Z) (l : list Z) : list Z :=
  match l with
  | [] => []
  | y :: l' => if decide (y = x) then l' else y :: remove_first x l'
  end.

Definition bag_apply (b : list Z) (o : sm_op) : list Z :=
  match o with
  | Insert x => x :: b
  | Erase x => remove_first x b
  end.

Definition bag_run (ops : list sm_op) : list Z := fold_left bag_apply ops [].


(** The entries of a cache, most recently used first. *)
Definition entries (c : LRUCache) : list (Z * Z) := (dll c).*2.

(** An association list of keys and values, most recently used first, as a
    reference model of the cache: a hit moves the entry to the front, a new
    key goes to the front after the last entry is dropped when the size
    meets the capacity. *)
Fixpoint assoc_find (key : Z) (l : list (Z * Z)) : option Z :=
  match l with
  | [] => None
  | e :: l' => if decide (e.1 = key) then Some e.2 else assoc_find key l'
  end.

Definition assoc_drop (key : Z) (l : list (Z * Z)) : list (Z * Z) :=
  filter (λ e, e.1 ≠ key) l.

Definition assoc_get (key : Z) (l : list (Z * Z)) : Z * list (Z * Z) :=
  match assoc_find key l with
  | Some v => (v, (key, v) :: assoc_drop key l)
  | None => (NOT_FOUND, l)
  end.

Definition assoc_put (capacity key value : Z) (l : list (Z * Z))
  : list (Z * Z) :=
  match assoc_find key l with
  | Some _ => (key, value) :: assoc_drop key l
  | None =>
      (key, value)
      :: (if decide (to_int (Z.of_nat (length l)) = capacity)
          then removelast l else l)
  end.

Definition assoc_apply (capacity : Z) (acc : list Z * list (Z * Z))
    (o : lru_op) : list Z * list (Z * Z) :=
  match o with
  | Get key => (acc.1 ++ [(assoc_get key acc.2).1], (assoc_get key acc.2).2)
  | Put key value => (acc.1, assoc_put capacity key value acc.2)
  end.

Definition assoc_run (capacity : Z) (ops : list lru_op)
  : list Z * list (Z * Z) :=
  fold_left (assoc_apply capacity) ops ([], []).

(** ** [autocomplete.cpp] *)

(** [a < b] on [std::string]: the lexicographic order of the characters as
    unsigned values. *)
Definition str_lt (a b : string) : bool := String.ltb a b.

(** [s.compare(0, p.size(), p) == 0]: the first [p.size()] characters of
    [s], or all of [s] when it is shorter, are [p]. *)
Definition starts_with (p s : string) : bool :=
  bool_decide (String.substring 0 (String.length p) s = p).

(** [std::lower_bound(dict.begin(), dict.end(), p)], on positions: the
    binary search of the standard library, which halves the range
    [first, first + len) until it is empty. *)
Fixpoint lower_bound_loop (fuel : nat) (dict : list string) (p : string)
    (first len : nat) : nat :=
  if decide (0 < len) then
    match fuel with
    | O => first
    | S fuel' =>
        let half := len `div` 2 in
        let middle := first + half in
        match dict !! middle with
        | Some s =>
            if str_lt s p
            then lower_bound_loop fuel' dict p (middle + 1) (len - half - 1)
            else lower_bound_loop fuel' dict p first half
        | None => first
        end
    end
  else first.

Definition lower_bound (dict : list string) (p : string) : nat :=
  lower_bound_loop (length dict) dict p 0 (length dict).

(** The loop of [prefix_search] over the entries from [lo] on: it stops at
    the first entry that does not start with [p]. *)
Fixpoint collect (p : string) (l : list string) : list string :=
  match l with
  | [] => []
  | s :: l' => if starts_with p s then s :: collect p l' else []
  end.

Definition prefix_search (dict : list string) (p : string) : list string :=
  collect p (drop (lower_bound dict p) dict).

(** A dictionary in the order that [std::sort] gives it. *)
Definition str_le (a b : string) : Prop := str_lt b a = false.
Definition dict_sorted (dict : list string) : Prop :=
  StronglySorted str_le dict.

(** What [std::lower_bound] requires of its range: the entries below [p]
    come before all the others. *)
Definition partitioned (dict : list string) (p : string) : Prop :=
  ∃ n, n ≤ length dict
    ∧ Forall (λ s, str_lt s p = true) (take n dict)
    ∧ Forall (λ s, str_lt s p = false) (drop n dict).

(** ** [top_k.cpp] *)

(** [cnt[s]++] on an [unordered_map<string,int>]: a missing key starts from
    0.  A count is at most the number of words read, which is an [int], so
    the increment does not wrap. *)
Definition count_word (cnt : gmap string Z) (s : string) : gmap string Z :=
  <[s := (default 0 (cnt !! s) + 1)%Z]> cnt.

Definition count_words (words : list string) : gmap string Z :=
  fold_left count_word words ∅.

(** The comparison [cmp] of [main]: the larger count first, and for equal
    counts the smaller word first. *)
Definition cmp (a b : string * Z) : bool :=
  if decide (a.2 ≠ b.2) then (b.2 <? a.2)%Z else str_lt a.1 b.1.

Definition cmp_le (a b : string * Z) : Prop := cmp b a = false.

Global Instance cmp_le_dec : RelDecision cmp_le.
Proof. intros a b. unfold cmp_le. apply _. Defined.

(** The selection of [main] on the vector [v] of the entries of the map.
    [sort] and [partial_sort] of the standard library are given by their
    result: with a comparison that orders every two different entries there
    is one arrangement they can produce, computed here by a merge sort, and
    [partial_sort] followed by [resize(K)] keeps its first [K] entries.
    [(size_t)K] of a negative [K] is larger than every size. *)
Definition top_k_of (v : list (string * Z)) (K : Z) : list (string * Z) :=
  if decide (0 ≤ K < Z.of_nat (length v))%Z
  then take (Z.to_nat K) (merge_sort cmp_le v)
  else merge_sort cmp_le v.

(** The lines that [main] prints for the words read: the vector is filled
    from the map in the order in which the map is traversed. *)
Definition top_k (words : list string) (K : Z) : list (string * Z) :=
  top_k_of (map_to_list (count_words words)) K.

(** The number of times that [w] occurs in [words]. *)
Definition occurrences (w : string) (words : list string) : nat :=
  length (filter (λ s, s = w) words).

(** The values of [s] in the [N] rounds of the counting loop of [main], with
    [tokens] the words that follow [N] and [K] on the input.  Each round
    starts from a fresh, empty [s]; once the input is used up [cin>>s] fails
    and leaves [s] as it is, and the round counts the empty string. *)
Definition read_words (N : Z) (tokens : list string) : list string :=
  take (Z.to_nat N) tokens
  ++ replicate (Z.to_nat N - length tokens) ""%string.

(** [main] after [N] and [K] have been read.  [N*2] is an [int] product,
    and [reserve] takes it as a size: the model gives no result where the
    product overflows or is negative. *)
Definition top_k_main (N K : Z) (tokens : list string)
    : option (list (string * Z)) :=
  if decide (0 ≤ N ∧ 2 * N ≤ INT_MAX)%Z
  then Some (top_k (read_words N tokens) K)
  else None.

(** ** Properties of the multiset model *)

Lemma snoc_cases {A} (k : list A) : k = [] ∨ ∃ k' a, k = k' ++ [a].
Proof.
  induction k as [|a k IH] using rev_ind; [by left|]. right. eauto.
Qed.

Section mset_facts.
Implicit Types (x y m : Z) (l : list Z).

Lemma MSet_insert_perm x l : MSet.insert x l ≡ₚ x :: l.
Proof.
  induction l as [|y l IH]; simpl; [done|].
  destruct (x <? y)%Z; [done|].
  by rewrite IH, Permutation_swap.
Qed.

Lemma MSet_insert_length x l : length (MSet.insert x l) = S (length l).
Proof. by rewrite MSet_insert_perm. Qed.

Lemma MSet_insert_sorted x l :
  StronglySorted Z.le l → StronglySorted Z.le (MSet.insert x l).
Proof.
  induction 1 as [|y l Hl IH Hy]; simpl.
  { repeat constructor. }
  destruct (Z.ltb_spec x y).
  - constructor; [by constructor|].
    constructor; [lia|]. eapply Forall_impl; [exact Hy|]. simpl; lia.
  - constructor; [done|].
    rewrite MSet_insert_perm. constructor; [lia|done].
Qed.

(** Inserting a value that is below everything puts it in front... *)
Lemma MSet_insert_least m l :
  Forall (Z.le m) l → MSet.insert m l = m :: l.
Proof.
  induction 1 as [|y l Hy _ IH]; simpl; [done|].
  destruct (Z.ltb_spec m y); [done|].
  assert (y = m) as -> by lia. by rewrite IH.
Qed.

(** ... and one that is above everything puts it at the back. *)
Lemma MSet_insert_greatest m l :
  Forall (λ y, y ≤ m)%Z l → MSet.insert m l = l ++ [m].
Proof.
  induction 1 as [|y l Hy _ IH]; simpl; [done|].
  destruct (Z.ltb_spec m y); [lia|]. by rewrite IH.
Qed.

Lemma MSet_find_Some x l it : MSet.find x l = Some it → l !! it = Some x.
Proof.
  revert it. induction l as [|y l IH]; intros it; simpl; [done|].
  destruct (Z.eqb_spec y x) as [->|].
  - by intros [= <-].
  - destruct (MSet.find x l) as [j|]; simpl; [|done].
    intros [= <-]. by apply IH.
Qed.

Lemma MSet_find_None x l : MSet.find x l = None ↔ x ∉ l.
Proof.
  induction l as [|y l IH]; simpl.
  { split; [|done]. intros _. apply not_elem_of_nil. }
  rewrite not_elem_of_cons. destruct (Z.eqb_spec y x) as [->|].
  - split; [done|]. by intros [].
  - destruct (MSet.find x l); simpl.
    + split; [done|]. intros [_ Hl]. by apply IH in Hl.
    + split; [|done]. intros _. split; [done|]. by apply IH.
Qed.

Lemma MSet_find_is_Some x l : x ∈ l → is_Some (MSet.find x l).
Proof.
  intros Hx. destruct (MSet.find x l) eqn:E; [by eexists|].
  by apply MSet_find_None in E.
Qed.

Lemma MSet_erase_sorted it l :
  StronglySorted Z.le l → StronglySorted Z.le (MSet.erase it l).
Proof.
  unfold MSet.erase. intros Hl. revert it.
  induction Hl as [|y l Hl IH Hy]; intros [|it]; simpl;
    [constructor..|done|].
  constructor; [apply IH|]. by apply Forall_delete.
Qed.

Lemma MSet_erase_perm it l x :
  l !! it = Some x → l ≡ₚ x :: MSet.erase it l.
Proof. apply delete_Permutation. Qed.

(** The element designated by [prev(end())] of a non-empty sequence. *)
Lemma MSet_prev_end_snoc l m :
  (l ++ [m]) !! MSet.prev_end (l ++ [m]) = Some m
  ∧ MSet.erase (MSet.prev_end (l ++ [m])) (l ++ [m]) = l.
Proof.
  unfold MSet.prev_end, MSet.erase.
  rewrite length_app; simpl.
  replace (pred (length l + 1)) with (length l) by lia.
  split; [by rewrite list_lookup_middle|].
  by rewrite delete_middle, app_nil_r.
Qed.

(** In an ascending sequence [prev(end())] designates the greatest element
    and [begin()] the least one. *)
Lemma sorted_prev_end_greatest l m :
  StronglySorted Z.le l → l !! MSet.prev_end l = Some m → greatest l m.
Proof.
  intros Hl Hm. destruct (snoc_cases l) as [->|(l' & m' & ->)]; [done|].
  destruct (MSet_prev_end_snoc l' m') as [E _].
  rewrite E in Hm. injection Hm as ->.
  split; [set_solver|]. intros y Hy.
  apply elem_of_app in Hy as [Hy|Hy].
  - eapply (StronglySorted_app_1_elem_of Z.le); [done..|]. set_solver.
  - apply list_elem_of_singleton in Hy as ->. lia.
Qed.

Lemma sorted_begin_least l m :
  StronglySorted Z.le l → l !! MSet.begin l = Some m → least l m.
Proof.
  destruct l as [|y l]; [done|]. simpl. intros Hl [= ->].
  apply StronglySorted_cons in Hl as [Hy _].
  split; [set_solver|]. intros y [->|Hy']%elem_of_cons; [lia|].
  by eapply (Forall_forall (Z.le m) l).
Qed.
End mset_facts.

(** ** The tracker: termination of [balance] and its invariants *)

Section balance_facts.
Implicit Types (s : SlidingMedian) (x m : Z).

Lemma ordered_alt s :
  ordered s ↔
  (∀ a b, a ∈ lo s → b ∈ hi s → (a ≤ b)%Z)
  ∧ StronglySorted Z.le (lo s) ∧ StronglySorted Z.le (hi s).
Proof. apply StronglySorted_app. Qed.

(** The loop bodies never dereference [end()] under their guards. *)
Lemma move_max_to_hi_defined s :
  length (hi s) + 1 < length (lo s) →
  is_Some (lo s !! MSet.prev_end (lo s)).
Proof. intros H. apply lookup_lt_is_Some. unfold MSet.prev_end. lia. Qed.

Lemma move_min_to_lo_defined s :
  length (lo s) < length (hi s) →
  is_Some (hi s !! MSet.begin (hi s)).
Proof. intros H. apply lookup_lt_is_Some. unfold MSet.begin. lia. Qed.

Lemma move_max_to_hi_length s :
  lo s ≠ [] →
  length (lo (move_max_to_hi s)) + 1 = length (lo s)
  ∧ length (hi (move_max_to_hi s)) = length (hi s) + 1.
Proof.
  intros Hne. unfold move_max_to_hi.
  destruct (snoc_cases (lo s)) as [?|(l' & m & E)]; [done|].
  destruct (MSet_prev_end_snoc l' m) as [E1 E2].
  rewrite E, E1, E2; simpl.
  rewrite length_app, MSet_insert_length; simpl. lia.
Qed.

Lemma move_min_to_lo_length s :
  hi s ≠ [] →
  length (lo (move_min_to_lo s)) = length (lo s) + 1
  ∧ length (hi (move_min_to_lo s)) + 1 = length (hi s).
Proof.
  intros Hne. unfold move_min_to_lo, MSet.begin, MSet.erase.
  destruct (hi s) as [|m h]; [done|]; simpl.
  rewrite MSet_insert_length. lia.
Qed.

(** The first loop stops within [length lo] iterations, and the sizes record
    how many it made. *)
Lemma shrink_lo_sizes fuel s :
  length (lo s) ≤ fuel →
  let r := shrink_lo fuel s in
  ¬ (length (hi r.2) + 1 < length (lo r.2))
  ∧ length (lo r.2) + r.1 = length (lo s)
  ∧ length (hi r.2) = length (hi s) + r.1
  ∧ (0 < r.1 → length (hi r.2) ≤ length (lo r.2)).
Proof.
  revert s. induction fuel as [|fuel IH]; intros s Hfuel; simpl.
  - case_decide; simpl; lia.
  - case_decide as Hg; simpl; [|lia].
    destruct (move_max_to_hi_length s) as [E1 E2].
    { intros E. rewrite E in Hg. simpl in Hg. lia. }
    specialize (IH (move_max_to_hi s) ltac:(lia)).
    destruct (shrink_lo fuel (move_max_to_hi s)) as [n s'].
    simpl in *. lia.
Qed.

Lemma grow_lo_sizes fuel s :
  length (hi s) ≤ fuel →
  let r := grow_lo fuel s in
  ¬ (length (lo r.2) < length (hi r.2))
  ∧ length (hi r.2) + r.1 = length (hi s)
  ∧ length (lo r.2) = length (lo s) + r.1
  ∧ (0 < r.1 → length (lo r.2) ≤ length (hi r.2) + 1).
Proof.
  revert s. induction fuel as [|fuel IH]; intros s Hfuel; simpl.
  - case_decide; simpl; lia.
  - case_decide as Hg; simpl; [|lia].
    destruct (move_min_to_lo_length s) as [E1 E2].
    { intros E. rewrite E in Hg. simpl in Hg. lia. }
    specialize (IH (move_min_to_lo s) ltac:(lia)).
    destruct (grow_lo fuel (move_min_to_lo s)) as [n s'].
    simpl in *. lia.
Qed.

Lemma shrink_lo_exit fuel s :
  length (lo s) ≤ fuel →
  ¬ (length (hi (shrink_lo fuel s).2) + 1 < length (lo (shrink_lo fuel s).2)).
Proof. intros H. apply (shrink_lo_sizes fuel s H). Qed.

Lemma grow_lo_exit fuel s :
  length (hi s) ≤ fuel →
  ¬ (length (lo (grow_lo fuel s).2) < length (hi (grow_lo fuel s).2)).
Proof. intros H. apply (grow_lo_sizes fuel s H). Qed.

(** More fuel than the bound changes nothing. *)
Lemma shrink_lo_fuel fuel s :
  length (lo s) ≤ fuel → shrink_lo fuel s = shrink_lo (length (lo s)) s.
Proof.
  revert s. induction fuel as [|fuel IH]; intros s Hfuel.
  { by replace (length (lo s)) with 0 by lia. }
  destruct (length (lo s)) as [|n] eqn:En; simpl.
  - case_decide; [lia|done].
  - case_decide as Hg; [|done].
    destruct (move_max_to_hi_length s) as [E1 E2].
    { intros E. by rewrite E in En. }
    rewrite IH by lia. by replace (length (lo (move_max_to_hi s))) with n by lia.
Qed.

Lemma grow_lo_fuel fuel s :
  length (hi s) ≤ fuel → grow_lo fuel s = grow_lo (length (hi s)) s.
Proof.
  revert s. induction fuel as [|fuel IH]; intros s Hfuel.
  { by replace (length (hi s)) with 0 by lia. }
  destruct (length (hi s)) as [|n] eqn:En; simpl.
  - case_decide; [lia|done].
  - case_decide as Hg; [|done].
    destruct (move_min_to_lo_length s) as [E1 E2].
    { intros E. by rewrite E in En. }
    rewrite IH by lia. by replace (length (hi (move_min_to_lo s))) with n by lia.
Qed.

Lemma shrink_lo_idle fuel s :
  ¬ (length (hi s) + 1 < length (lo s)) → shrink_lo fuel s = (0, s).
Proof. intros. destruct fuel; simpl; by case_decide. Qed.

Lemma grow_lo_idle fuel s :
  ¬ (length (lo s) < length (hi s)) → grow_lo fuel s = (0, s).
Proof. intros. destruct fuel; simpl; by case_decide. Qed.

(** [balance] establishes the size invariant from any state. *)
Lemma balance_sizes_ok s : sizes_ok (balance s).
Proof.
  unfold balance, balance_run, sizes_ok.
  pose proof (shrink_lo_sizes (length (lo s)) s ltac:(lia)) as H1.
  destruct (shrink_lo (length (lo s)) s) as [n1 s1]; simpl in H1.
  pose proof (grow_lo_sizes (length (hi s1)) s1 ltac:(lia)) as H2.
  destruct (grow_lo (length (hi s1)) s1) as [n2 s2]; simpl in *.
  destruct n2; lia.
Qed.

(** [balance] does nothing when the sizes are already right. *)
Lemma balance_run_idle s : sizes_ok s → balance_run s = (0, s).
Proof.
  intros Hs. unfold balance_run, sizes_ok in *.
  rewrite shrink_lo_idle by lia. by rewrite grow_lo_idle by lia.
Qed.

Lemma balance_idle s : sizes_ok s → balance s = s.
Proof. intros Hs. unfold balance. by rewrite balance_run_idle. Qed.

(** The number of elements that [balance] moves. *)
Lemma balance_run_moves s :
  let n := (balance_run s).1 in
  (length (hi s) + 1 < length (lo s) →
     2 * n = length (lo s) - length (hi s)
     ∨ 2 * n + 1 = length (lo s) - length (hi s))
  ∧ (length (lo s) < length (hi s) →
     2 * n = length (hi s) - length (lo s)
     ∨ 2 * n = length (hi s) - length (lo s) + 1)
  ∧ (sizes_ok s → n = 0).
Proof.
  unfold balance_run, sizes_ok.
  pose proof (shrink_lo_sizes (length (lo s)) s ltac:(lia)) as H1.
  destruct (shrink_lo (length (lo s)) s) as [n1 s1]; simpl in H1.
  pose proof (grow_lo_sizes (length (hi s1)) s1 ltac:(lia)) as H2.
  destruct (grow_lo (length (hi s1)) s1) as [n2 s2]; simpl in *.
  lia.
Qed.
End balance_facts.

Section order_facts.
Implicit Types (s : SlidingMedian) (x m : Z).

Global Instance Z_le_antisym : AntiSymm (=) Z.le.
Proof. intros x y ??. lia. Qed.

(** On an ordered state a move only shifts the border between [lo] and
    [hi]. *)
Lemma move_max_to_hi_contents s :
  ordered s →
  lo (move_max_to_hi s) ++ hi (move_max_to_hi s) = lo s ++ hi s.
Proof.
  intros Ho. unfold move_max_to_hi.
  destruct (lo s !! MSet.prev_end (lo s)) as [v|] eqn:Ev; [|done].
  destruct (snoc_cases (lo s)) as [E|(l' & m & E)].
  { by rewrite E in Ev. }
  destruct (MSet_prev_end_snoc l' m) as [E1 E2].
  rewrite E, E1 in Ev. injection Ev as <-. rewrite E, E2; simpl.
  rewrite MSet_insert_least; [by rewrite <-app_assoc|].
  apply Forall_forall. intros y Hy.
  apply ordered_alt in Ho as (Hle & _ & _). apply Hle; [|done].
  rewrite E. set_solver.
Qed.

Lemma move_min_to_lo_contents s :
  ordered s →
  lo (move_min_to_lo s) ++ hi (move_min_to_lo s) = lo s ++ hi s.
Proof.
  intros Ho. unfold move_min_to_lo, MSet.begin, MSet.erase.
  destruct (hi s) as [|m h] eqn:E; simpl; [by rewrite E|].
  rewrite MSet_insert_greatest; [by rewrite <-app_assoc|].
  apply Forall_forall. intros y Hy.
  apply ordered_alt in Ho as (Hle & _ & _). apply Hle; [done|].
  rewrite E. set_solver.
Qed.

Lemma shrink_lo_contents fuel s :
  ordered s →
  lo (shrink_lo fuel s).2 ++ hi (shrink_lo fuel s).2 = lo s ++ hi s.
Proof.
  revert s. induction fuel as [|fuel IH]; intros s Ho; simpl.
  { by case_decide. }
  case_decide; [|done].
  pose proof (move_max_to_hi_contents s Ho) as E.
  specialize (IH (move_max_to_hi s)). unfold ordered in IH.
  rewrite E in IH. specialize (IH Ho).
  by destruct (shrink_lo fuel (move_max_to_hi s)).
Qed.

Lemma grow_lo_contents fuel s :
  ordered s →
  lo (grow_lo fuel s).2 ++ hi (grow_lo fuel s).2 = lo s ++ hi s.
Proof.
  revert s. induction fuel as [|fuel IH]; intros s Ho; simpl.
  { by case_decide. }
  case_decide; [|done].
  pose proof (move_min_to_lo_contents s Ho) as E.
  specialize (IH (move_min_to_lo s)). unfold ordered in IH.
  rewrite E in IH. specialize (IH Ho).
  by destruct (grow_lo fuel (move_min_to_lo s)).
Qed.

Lemma balance_contents s :
  ordered s → lo (balance s) ++ hi (balance s) = lo s ++ hi s.
Proof.
  intros Ho. unfold balance, balance_run.
  pose proof (shrink_lo_contents (length (lo s)) s Ho) as E1.
  destruct (shrink_lo (length (lo s)) s) as [n1 s1]; simpl in E1.
  assert (ordered s1) as Ho1 by (unfold ordered; by rewrite E1).
  pose proof (grow_lo_contents (length (hi s1)) s1 Ho1) as E2.
  destruct (grow_lo (length (hi s1)) s1) as [n2 s2]; simpl in *.
  by rewrite E2.
Qed.

Lemma balance_inv s : ordered s → sm_inv (balance s).
Proof.
  intros Ho. split; [|apply balance_sizes_ok].
  unfold ordered. by rewrite balance_contents.
Qed.

(** A state that satisfies the invariant is determined by the values it
    holds. *)
Lemma sm_inv_unique s1 s2 :
  sm_inv s1 → sm_inv s2 →
  lo s1 ++ hi s1 ≡ₚ lo s2 ++ hi s2 → s1 = s2.
Proof.
  intros [Ho1 Hs1] [Ho2 Hs2] Hp.
  assert (lo s1 ++ hi s1 = lo s2 ++ hi s2) as E
    by (by apply (StronglySorted_unique Z.le)).
  assert (length (lo s1) = length (lo s2)) as El.
  { apply (f_equal length) in E. rewrite !length_app in E.
    unfold sizes_ok in *. lia. }
  apply app_inj_1 in E as [E1 E2]; [|done].
  destruct s1, s2; simpl in *. by subst.
Qed.

(** The first statement of [insert] keeps the order and adds [x]. *)
Lemma place_perm x s :
  lo (place x s) ++ hi (place x s) ≡ₚ x :: lo s ++ hi s.
Proof.
  unfold place. case_decide as Hl; simpl.
  { by rewrite MSet_insert_perm. }
  destruct (snoc_cases (lo s)) as [?|(l' & m & E)]; [done|].
  destruct (MSet_prev_end_snoc l' m) as [E1 _]. rewrite E, E1.
  destruct (x <=? m)%Z; simpl; rewrite MSet_insert_perm; [done|].
  by rewrite Permutation_middle.
Qed.

Lemma place_ordered x s : sm_inv s → ordered (place x s).
Proof.
  intros [Ho Hs]. pose proof Ho as (Hle & Hlo & Hhi)%ordered_alt.
  unfold place. case_decide as Hl.
  { apply ordered_alt; simpl. unfold sizes_ok in Hs. rewrite Hl in *.
    destruct (hi s) eqn:Eh; [|simpl in Hs; lia].
    split_and!; [set_solver|repeat constructor..]. }
  destruct (lo s !! MSet.prev_end (lo s)) as [m|] eqn:Em; [|done].
  destruct (sorted_prev_end_greatest _ _ Hlo Em) as [Hm Hmax].
  destruct (Z.leb_spec x m); apply ordered_alt; simpl.
  - split_and!; [|by apply MSet_insert_sorted|done].
    intros a b Ha Hb. rewrite MSet_insert_perm in Ha.
    apply elem_of_cons in Ha as [->|Ha]; [|by apply Hle].
    specialize (Hle m b Hm Hb). lia.
  - split_and!; [|done|by apply MSet_insert_sorted].
    intros a b Ha Hb. rewrite MSet_insert_perm in Hb.
    apply elem_of_cons in Hb as [->|Hb]; [|by apply Hle].
    specialize (Hmax a Ha). lia.
Qed.

(** The first statement of [erase] keeps the order. *)
Lemma remove_one_ordered x s : ordered s → ordered (remove_one x s).
Proof.
  intros Ho. pose proof Ho as (Hle & Hlo & Hhi)%ordered_alt.
  unfold remove_one.
  destruct (MSet.find x (lo s)) as [it|]; [|destruct (MSet.find x (hi s)) as [it|]];
    [..|done]; apply ordered_alt; simpl;
    (split_and!; [|by try apply MSet_erase_sorted..]);
    intros a b Ha Hb; apply Hle;
    by try (eapply list_elem_of_delete_inv; exact Ha || exact Hb).
Qed.

Lemma remove_one_present x s :
  x ∈ lo s ++ hi s →
  lo s ++ hi s ≡ₚ x :: lo (remove_one x s) ++ hi (remove_one x s).
Proof.
  intros Hx. unfold remove_one.
  destruct (MSet.find x (lo s)) as [it|] eqn:E1; simpl.
  { apply MSet_find_Some, MSet_erase_perm in E1. by rewrite E1 at 1. }
  apply MSet_find_None in E1.
  apply elem_of_app in Hx as [?|Hx]; [done|].
  destruct (MSet_find_is_Some _ _ Hx) as [it E2]. rewrite E2; simpl.
  apply MSet_find_Some, MSet_erase_perm in E2.
  rewrite E2 at 1. by rewrite Permutation_middle.
Qed.

Lemma remove_one_absent x s : x ∉ lo s → x ∉ hi s → remove_one x s = s.
Proof.
  intros H1%MSet_find_None H2%MSet_find_None.
  unfold remove_one. by rewrite H1, H2.
Qed.

Lemma insert_inv x s : sm_inv s → sm_inv (insert x s).
Proof. intros Hs. by apply balance_inv, place_ordered. Qed.

Lemma erase_inv x s : sm_inv s → sm_inv (erase x s).
Proof. intros [Ho _]. by apply balance_inv, remove_one_ordered. Qed.

Lemma SM_new_inv : sm_inv SM_new.
Proof. split; [constructor|by left]. Qed.

Lemma sm_apply_inv s o : sm_inv s → sm_inv (sm_apply s o).
Proof. destruct o; [apply insert_inv|apply erase_inv]. Qed.

Lemma sm_run_snoc ops o : sm_run (ops ++ [o]) = sm_apply (sm_run ops) o.
Proof. unfold sm_run. by rewrite fold_left_app. Qed.

Lemma sm_run_inv ops : sm_inv (sm_run ops).
Proof.
  induction ops as [|o ops IH] using rev_ind; [apply SM_new_inv|].
  rewrite sm_run_snoc. by apply sm_apply_inv.
Qed.
End order_facts.

(** ** The tracker: specification theorems *)

Section tracker_spec.
Implicit Types (s : SlidingMedian) (x m : Z) (ops : list sm_op).

Lemma insert_perm x s :
  sm_inv s → lo (insert x s) ++ hi (insert x s) ≡ₚ x :: lo s ++ hi s.
Proof.
  intros Hs. unfold insert.
  rewrite balance_contents by (by apply place_ordered). apply place_perm.
Qed.

Lemma erase_present_perm x s :
  ordered s → x ∈ lo s ++ hi s →
  lo s ++ hi s ≡ₚ x :: lo (erase x s) ++ hi (erase x s).
Proof.
  intros Ho Hx. unfold erase.
  rewrite balance_contents by (by apply remove_one_ordered).
  by apply remove_one_present.
Qed.

Lemma greatest_unique (l : list Z) m m' :
  greatest l m → greatest l m' → m = m'.
Proof. intros [H1 H2] [H3 H4]. specialize (H2 _ H3). specialize (H4 _ H1). lia. Qed.

(** The test [lo.empty() || x <= *prev(lo.end())] of [insert]. *)
Lemma place_cases x s :
  StronglySorted Z.le (lo s) →
  ((lo s = [] ∨ ∃ m, greatest (lo s) m ∧ (x ≤ m)%Z)
   ∧ place x s = mkSM (MSet.insert x (lo s)) (hi s))
  ∨ (¬ (lo s = [] ∨ ∃ m, greatest (lo s) m ∧ (x ≤ m)%Z)
     ∧ place x s = mkSM (lo s) (MSet.insert x (hi s))).
Proof.
  intros Hlo. unfold place. case_decide as Hl; [left; by eauto|].
  destruct (lookup_lt_is_Some_2 (lo s) (MSet.prev_end (lo s))) as [m Em].
  { unfold MSet.prev_end. destruct (lo s); [done|simpl; lia]. }
  rewrite Em. pose proof (sorted_prev_end_greatest _ _ Hlo Em) as Hm.
  destruct (Z.leb_spec x m); [left; by eauto|].
  right. split; [|done]. intros [?|(m' & Hm' & Hx)]; [done|].
  assert (m' = m) as -> by (by eapply greatest_unique). lia.
Qed.

Lemma erase_insert_inv x s : sm_inv s → erase x (insert x s) = s.
Proof.
  intros Hs. pose proof (insert_inv x s Hs) as Hi.
  apply sm_inv_unique; [by apply erase_inv|done|].
  pose proof (insert_perm x s Hs) as Hp.
  assert (x ∈ lo (insert x s) ++ hi (insert x s)) as Hx
    by (rewrite Hp; set_solver).
  pose proof (erase_present_perm x _ (proj1 Hi) Hx) as He.
  rewrite Hp in He. by apply Permutation_cons_inv in He.
Qed.
End tracker_spec.

(** C3: after every operation of every sequence of inserts and erases from
    the empty tracker, [lo] has as many values as [hi] or one more, and every
    value of [lo] is at most every value of [hi]. *)
Theorem tracker_invariant (ops : list sm_op) :
  (length (lo (sm_run ops)) = length (hi (sm_run ops))
   ∨ length (lo (sm_run ops)) = length (hi (sm_run ops)) + 1)
  ∧ ∀ a b : Z, a ∈ lo (sm_run ops) → b ∈ hi (sm_run ops) → (a ≤ b)%Z.
Proof.
  destruct (sm_run_inv ops) as [Ho Hs]. split; [exact Hs|].
  by apply ordered_alt in Ho as (Hle & _ & _).
Qed.

Lemma tracker_invariant_witness :
  (length (lo (sm_run [Insert 2; Insert 1; Erase 7]))
   = length (hi (sm_run [Insert 2; Insert 1; Erase 7]))
   ∨ length (lo (sm_run [Insert 2; Insert 1; Erase 7]))
     = length (hi (sm_run [Insert 2; Insert 1; Erase 7])) + 1)
  ∧ (1 ≤ 2)%Z.
Proof.
  destruct (tracker_invariant [Insert 2; Insert 1; Erase 7]) as [Hs Hle].
  split; [exact Hs|].
  apply Hle; apply (bool_decide_unpack _); vm_compute; exact I.
Defined.

(** C6: in every reachable state, [insert(x)] followed by [erase(x)] gives
    back the state: the same [lo] and [hi], hence the same size and the same
    median. *)
Theorem insert_erase_roundtrip (ops : list sm_op) (x : Z) :
  let s := sm_run ops in
  let s' := erase x (insert x s) in
  s' = s
  ∧ length (lo s' ++ hi s') = length (lo s ++ hi s)
  ∧ median s' = median s.
Proof.
  simpl. by rewrite erase_insert_inv by apply sm_run_inv.
Qed.

(** C9: in every reachable state, [erase(x)] of a value that is in neither
    multiset changes nothing: [lo], [hi], the size and the median stay. *)
Theorem erase_absent_noop (ops : list sm_op) (x : Z) :
  let s := sm_run ops in
  x ∉ lo s → x ∉ hi s →
  erase x s = s ∧ median (erase x s) = median s.
Proof.
  simpl. intros H1 H2. unfold erase.
  rewrite remove_one_absent by done.
  by rewrite balance_idle by apply sm_run_inv.
Qed.

Lemma erase_absent_noop_witness :
  erase 5 (sm_run [Insert 1; Insert 2; Insert 2])
  = sm_run [Insert 1; Insert 2; Insert 2].
Proof.
  apply (erase_absent_noop [Insert 1; Insert 2; Insert 2] 5);
    apply (bool_decide_unpack _); vm_compute; exact I.
Defined.

Section one_move.
Implicit Types (s : SlidingMedian) (x m : Z).

(** What one iteration of each loop of [balance] moves. *)
Lemma move_max_to_hi_moved s :
  lo s ≠ [] →
  ∃ m, lo s !! MSet.prev_end (lo s) = Some m
    ∧ lo s ≡ₚ m :: lo (move_max_to_hi s)
    ∧ hi (move_max_to_hi s) ≡ₚ m :: hi s.
Proof.
  intros Hne. unfold move_max_to_hi.
  destruct (snoc_cases (lo s)) as [?|(l' & m & E)]; [done|].
  destruct (MSet_prev_end_snoc l' m) as [E1 E2].
  exists m. rewrite E, E1, E2. simpl.
  split_and!; [done| |apply MSet_insert_perm].
  symmetry. apply Permutation_cons_append.
Qed.

Lemma move_min_to_lo_moved s :
  hi s ≠ [] →
  ∃ m, head (hi s) = Some m
    ∧ hi s ≡ₚ m :: hi (move_min_to_lo s)
    ∧ lo (move_min_to_lo s) ≡ₚ m :: lo s.
Proof.
  intros Hne. unfold move_min_to_lo, MSet.begin, MSet.erase.
  destruct (hi s) as [|m h]; [done|]. simpl.
  exists m. split_and!; [done..|apply MSet_insert_perm].
Qed.

(** A state that is off balance by one element takes one iteration. *)
Lemma balance_run_one_max s :
  length (lo s) = length (hi s) + 2 →
  balance_run s = (1, move_max_to_hi s).
Proof.
  intros E. unfold balance_run.
  destruct (move_max_to_hi_length s) as [E1 E2].
  { intros E0. rewrite E0 in E. simpl in E. lia. }
  replace (length (lo s)) with (S (length (hi s) + 1)) at 1 by lia.
  cbn [shrink_lo]. rewrite decide_True by lia.
  rewrite shrink_lo_idle by lia. by rewrite grow_lo_idle by lia.
Qed.

Lemma balance_run_one_min s :
  length (lo s) + 1 = length (hi s) →
  balance_run s = (1, move_min_to_lo s).
Proof.
  intros E. unfold balance_run.
  destruct (move_min_to_lo_length s) as [E1 E2].
  { intros E0. rewrite E0 in E. simpl in E. lia. }
  rewrite shrink_lo_idle by lia.
  replace (length (hi s)) with (S (length (lo s))) at 1 by lia.
  cbn [grow_lo]. rewrite decide_True by lia.
  by rewrite grow_lo_idle by lia.
Qed.

(** The rebalancing of a state that is at most one element off balance:
    nothing moves, or the greatest value of [lo] goes to [hi], or the first
    value of [hi] goes to [lo]. *)
Lemma balance_one_move s :
  StronglySorted Z.le (lo s) →
  sizes_ok s ∨ length (lo s) = length (hi s) + 2
  ∨ length (lo s) + 1 = length (hi s) →
  ((balance_run s).1 = 0 ∧ balance s = s
   ∨ (balance_run s).1 = 1
     ∧ ((∃ m, greatest (lo s) m
           ∧ lo s ≡ₚ m :: lo (balance s) ∧ hi (balance s) ≡ₚ m :: hi s)
        ∨ (∃ m, head (hi s) = Some m
             ∧ hi s ≡ₚ m :: hi (balance s) ∧ lo (balance s) ≡ₚ m :: lo s)))
  ∧ lo (balance s) ++ hi (balance s) ≡ₚ lo s ++ hi s.
Proof.
  intros Hlo [Hs|[E|E]]; unfold balance.
  - rewrite balance_run_idle by done. split; [by left|done].
  - rewrite (balance_run_one_max s E). simpl.
    destruct (move_max_to_hi_moved s) as (m & Em & Hl & Hh).
    { intros E0. rewrite E0 in E. simpl in E. lia. }
    split.
    + right. split; [done|]. left. exists m.
      split_and!; [by apply sorted_prev_end_greatest|done..].
    + rewrite Hh, Hl. simpl. by rewrite Permutation_middle.
  - rewrite (balance_run_one_min s E). simpl.
    destruct (move_min_to_lo_moved s) as (m & Em & Hh & Hl).
    { intros E0. rewrite E0 in E. simpl in E. lia. }
    split.
    + right. split; [done|]. right. by exists m.
    + rewrite Hl, Hh. simpl. by rewrite Permutation_middle.
Qed.
End one_move.

(** C7: on a tracker whose [lo] is ascending, as a multiset is, [insert(x)]
    puts [x] into [lo] exactly when [lo] is empty or [x] is at most the
    greatest value of [lo], and into [hi] otherwise: the multiset it goes to
    gains one occurrence of [x] and the other one stays as it is.  When the
    size invariant holds before the call, the loops of the rebalancing that
    follows make at most one iteration in total: either nothing moves, or
    the greatest value of [lo] moves to [hi], or the first value of [hi]
    moves to [lo]; they leave the size invariant established, and the two
    multisets together hold the old values and [x]. *)
Theorem insert_placement_and_moves (s : SlidingMedian) (x : Z) :
  StronglySorted Z.le (lo s) → sizes_ok s →
  let into_lo := lo s = [] ∨ ∃ m, greatest (lo s) m ∧ (x ≤ m)%Z in
  (into_lo → place x s = mkSM (MSet.insert x (lo s)) (hi s))
  ∧ (¬ into_lo → place x s = mkSM (lo s) (MSet.insert x (hi s)))
  ∧ insert x s = (balance_run (place x s)).2
  ∧ (balance_run (place x s)).1 ≤ 1
  ∧ sizes_ok (insert x s)
  ∧ (into_lo → lo (place x s) ≡ₚ x :: lo s ∧ hi (place x s) = hi s)
  ∧ (¬ into_lo → lo (place x s) = lo s ∧ hi (place x s) ≡ₚ x :: hi s)
  ∧ ((balance_run (place x s)).1 = 0 ∧ insert x s = place x s
     ∨ (balance_run (place x s)).1 = 1
       ∧ ((∃ m, greatest (lo (place x s)) m
             ∧ lo (place x s) ≡ₚ m :: lo (insert x s)
             ∧ hi (insert x s) ≡ₚ m :: hi (place x s))
          ∨ (∃ m, head (hi (place x s)) = Some m
               ∧ hi (place x s) ≡ₚ m :: hi (insert x s)
               ∧ lo (insert x s) ≡ₚ m :: lo (place x s))))
  ∧ lo (insert x s) ++ hi (insert x s) ≡ₚ x :: lo s ++ hi s.
Proof.
  intros Hlo Hs. simpl.
  pose proof (place_perm x s) as Hperm.
  destruct (place_cases x s Hlo) as [[Hc Hp]|[Hc Hp]].
  - destruct (balance_one_move (place x s)) as [Hmove Hall].
    { rewrite Hp. simpl. by apply MSet_insert_sorted. }
    { unfold sizes_ok in *. rewrite Hp. simpl.
      rewrite MSet_insert_length. lia. }
    split_and!; [done|done|done| |apply balance_sizes_ok| |done|exact Hmove|].
    + pose proof (balance_run_moves (place x s)) as Hn.
      unfold sizes_ok in *. rewrite Hp in *. simpl in Hn.
      rewrite MSet_insert_length in Hn. lia.
    + intros _. rewrite Hp. simpl. split; [apply MSet_insert_perm|done].
    + unfold insert. by rewrite Hall.
  - destruct (balance_one_move (place x s)) as [Hmove Hall].
    { by rewrite Hp. }
    { unfold sizes_ok in *. rewrite Hp. simpl.
      rewrite MSet_insert_length. lia. }
    split_and!; [done|done|done| |apply balance_sizes_ok|done| |exact Hmove|].
    + pose proof (balance_run_moves (place x s)) as Hn.
      unfold sizes_ok in *. rewrite Hp in *. simpl in Hn.
      rewrite MSet_insert_length in Hn. lia.
    + intros _. rewrite Hp. simpl. split; [done|apply MSet_insert_perm].
    + unfold insert. by rewrite Hall.
Qed.

Lemma insert_placement_and_moves_witness :
  place 4 (mkSM [1; 3]%Z [5; 7]%Z) = mkSM [1; 3]%Z (MSet.insert 4 [5; 7]%Z)
  ∧ (balance_run (place 4 (mkSM [1; 3]%Z [5; 7]%Z))).1 ≤ 1
  ∧ hi (place 4 (mkSM [1; 3]%Z [5; 7]%Z)) ≡ₚ [4; 5; 7]%Z.
Proof.
  assert (StronglySorted Z.le (lo (mkSM [1; 3]%Z [5; 7]%Z))) as Hlo
    by (apply (bool_decide_unpack _); vm_compute; exact I).
  assert (sizes_ok (mkSM [1; 3]%Z [5; 7]%Z)) as Hs by (left; reflexivity).
  destruct (insert_placement_and_moves (mkSM [1; 3]%Z [5; 7]%Z) 4 Hlo Hs)
    as (_ & Hhi & _ & Hn & _ & _ & Hin & _).
  assert (¬ (lo (mkSM [1; 3]%Z [5; 7]%Z) = []
             ∨ ∃ m, greatest (lo (mkSM [1; 3]%Z [5; 7]%Z)) m ∧ (4 ≤ m)%Z))
    as Hno.
  { intros [E|(m & [Hm _] & Hx)]; [discriminate E|].
    simpl in Hm. apply elem_of_cons in Hm as [->|Hm]; [lia|].
    apply list_elem_of_singleton in Hm as ->. lia. }
  split_and!; [exact (Hhi Hno)|exact Hn|exact (proj2 (Hin Hno))].
Defined.

(** C5: in every reachable state, [median()] returns the sentinel [0] when
    both multisets are empty; the greatest value of [lo], as a [double], when
    [lo] is the larger multiset; and otherwise the [double] quotient by
    [2.0] of the [double] sum of the greatest value of [lo] and the least
    value of [hi]. *)
Theorem median_cases (ops : list sm_op) :
  let s := sm_run ops in
  (lo s = [] ∧ hi s = [] → median s = Done (S754_zero false))
  ∧ (length (hi s) < length (lo s) →
     ∃ m, greatest (lo s) m ∧ median s = Done (Double.of_Z m))
  ∧ (¬ (lo s = [] ∧ hi s = []) → ¬ length (hi s) < length (lo s) →
     ∃ a b, greatest (lo s) a ∧ least (hi s) b
       ∧ median s =
           Done (Double.div (Double.add (Double.of_Z a) (Double.of_Z b))
                   Double.two)).
Proof.
  simpl. destruct (sm_run_inv ops) as [Ho Hs].
  apply ordered_alt in Ho as (_ & Hlo & Hhi).
  unfold median, MSet.deref. split_and!.
  - intros He. by rewrite decide_True.
  - intros Hlt. rewrite decide_False, decide_True by (done || (intros [E _]; rewrite E in Hlt; simpl in Hlt; lia)).
    destruct (lookup_lt_is_Some_2 (lo (sm_run ops)) (MSet.prev_end (lo (sm_run ops))))
      as [m Em]; [unfold MSet.prev_end; lia|].
    exists m. rewrite Em. split; [|done]. by apply sorted_prev_end_greatest.
  - intros Hne Hge. rewrite !decide_False by done.
    assert (0 < length (lo (sm_run ops)) ∧ 0 < length (hi (sm_run ops)))
      as [Hl Hh].
    { unfold sizes_ok in Hs.
      destruct (lo (sm_run ops)), (hi (sm_run ops)); simpl in *;
        try lia. by destruct Hne. }
    destruct (lookup_lt_is_Some_2 (lo (sm_run ops)) (MSet.prev_end (lo (sm_run ops))))
      as [a Ea]; [unfold MSet.prev_end; lia|].
    destruct (lookup_lt_is_Some_2 (hi (sm_run ops)) (MSet.begin (hi (sm_run ops))))
      as [b Eb]; [unfold MSet.begin; lia|].
    exists a, b. rewrite Ea, Eb.
    split_and!; [by apply sorted_prev_end_greatest|by apply sorted_begin_least|done].
Qed.

Lemma median_cases_witness :
  ∃ a b, greatest (lo (sm_run [Insert 1; Insert 2])) a
    ∧ least (hi (sm_run [Insert 1; Insert 2])) b
    ∧ median (sm_run [Insert 1; Insert 2]) =
        Done (Double.div (Double.add (Double.of_Z a) (Double.of_Z b))
                Double.two).
Proof.
  destruct (median_cases [Insert 1; Insert 2]) as (_ & _ & H).
  apply H; vm_compute.
  - intros [E _]. discriminate E.
  - lia.
Defined.

(** The quotient is a floating-point one: the median of [1] and [2] is
    [1.5], that is [6755399441055744 * 2^-52]. *)
Example median_of_two :
  median (sm_run [Insert 1; Insert 2])
  = Done (S754_finite false 6755399441055744 (-52)).
Proof. vm_compute. reflexivity. Qed.

(** C1, as the code has it: the demonstration loop of [main] over
    [1,3,-1,-3,5,3,6,7] with window size 3 (insert the element; from the
    third element on, record [median()] and erase the element that leaves
    the window) records six medians, one for each window:
    [1, -1, -1, 3, 5, 6]. *)
Theorem demo_medians :
  window_medians demo_nums demo_k = Done (Double.of_Z <$> [1; -1; -1; 3; 5; 6]%Z).
Proof. vm_compute. reflexivity. Qed.

(** C1, as stated: the recorded medians are not the seven values
    [1, -1, -1, 3, 5, 3, 6]. *)
Lemma demo_medians_not_seven :
  window_medians demo_nums demo_k
  ≠ Done (Double.of_Z <$> [1; -1; -1; 3; 5; 3; 6]%Z).
Proof. vm_compute. discriminate. Qed.

(** ** The cache: list and index *)

Section dlist_facts.
Implicit Types (l : list DList.node) (it : ListIt) (kv : Z * Z).

Lemma index_of_keys l : (index_of l).*1 = DList.keys l.
Proof. unfold index_of, DList.keys. by rewrite <-list_fmap_compose. Qed.

Lemma deref_node it l :
  it ∈ l.*1 → ∃ kv, DList.deref it l = Done kv ∧ (it, kv) ∈ l.
Proof.
  induction l as [|[i kv] l IH]; simpl; [by intros ?%elem_of_nil|].
  intros Hit. case_decide as Hi; simpl in Hi.
  - subst. exists kv. split; [done|]. by left.
  - apply elem_of_cons in Hit as [?|Hit]; [done|].
    destruct (IH Hit) as (kv' & ? & ?). exists kv'. split; [done|]. by right.
Qed.

(** A node identity designates one node. *)
Lemma node_unique it kv1 kv2 l :
  NoDup l.*1 → (it, kv1) ∈ l → (it, kv2) ∈ l → kv1 = kv2.
Proof.
  induction l as [|[i kv] l IH]; csimpl; [by intros _ ?%elem_of_nil|].
  rewrite NoDup_cons. intros [Hi Hnd] H1 H2.
  apply elem_of_cons in H1 as [E1|H1];
    apply elem_of_cons in H2 as [E2|H2]; simplify_eq; auto.
  - destruct Hi. apply list_elem_of_fmap. by exists (i, kv2).
  - destruct Hi. apply list_elem_of_fmap. by exists (i, kv1).
Qed.

Lemma unlink_cons_eq it kv l :
  DList.unlink it ((it, kv) :: l) = DList.unlink it l.
Proof. unfold DList.unlink. by rewrite filter_cons_False by (simpl; tauto). Qed.

Lemma unlink_cons_ne it i kv l :
  i ≠ it → DList.unlink it ((i, kv) :: l) = (i, kv) :: DList.unlink it l.
Proof. intros. unfold DList.unlink. by rewrite filter_cons_True. Qed.

Lemma unlink_absent it l : it ∉ l.*1 → DList.unlink it l = l.
Proof.
  induction l as [|[i kv] l IH]; [done|]; csimpl.
  rewrite not_elem_of_cons. intros [? ?].
  rewrite unlink_cons_ne by done. by rewrite IH.
Qed.

(** Moving a node to the front permutes the list. *)
Lemma unlink_perm it kv l :
  NoDup l.*1 → (it, kv) ∈ l → (it, kv) :: DList.unlink it l ≡ₚ l.
Proof.
  induction l as [|[i kv'] l IH]; csimpl.
  { by intros _ ?%elem_of_nil. }
  rewrite NoDup_cons. intros [Hi Hnd] Hin.
  destruct (decide (i = it)) as [->|Hne].
  - rewrite unlink_cons_eq.
    apply elem_of_cons in Hin as [[= ->]|Hin].
    + by rewrite unlink_absent.
    + destruct Hi. apply list_elem_of_fmap. by exists (it, kv).
  - rewrite unlink_cons_ne by done.
    apply elem_of_cons in Hin as [[= ? ?]|Hin]; [congruence|].
    by rewrite Permutation_swap, IH.
Qed.

Lemma splice_front_perm it l :
  NoDup l.*1 → it ∈ l.*1 →
  ∃ kv, DList.splice_front it l = Done ((it, kv) :: DList.unlink it l)
    ∧ (it, kv) :: DList.unlink it l ≡ₚ l.
Proof.
  intros Hnd Hit. destruct (deref_node it l Hit) as (kv & E & Hin).
  exists kv. unfold DList.splice_front. rewrite E. split; [done|].
  by apply unlink_perm.
Qed.

(** Assigning a value changes neither the nodes nor the keys. *)
Lemma assign_second_index it v l :
  it ∈ l.*1 →
  ∃ l', DList.assign_second it v l = Done l'
    ∧ l'.*1 = l.*1 ∧ index_of l' = index_of l ∧ length l' = length l.
Proof.
  intros Hit. destruct (deref_node it l Hit) as (kv & E & _).
  unfold DList.assign_second. rewrite E. eexists. split; [done|].
  unfold index_of. rewrite <-!list_fmap_compose, length_fmap.
  split_and!; [| |done]; apply list_fmap_ext; intros ? [i kv'] _; simpl;
    by case_decide.
Qed.

Lemma fresh_is_fresh l : DList.fresh l ∉ l.*1.
Proof.
  intros Hin%max_list_elem_of_le. unfold DList.fresh in Hin. lia.
Qed.

Lemma back_snoc l n :
  DList.back (l ++ [n]) = Done n.2 ∧ DList.pop_back (l ++ [n]) = l.
Proof.
  unfold DList.back, DList.pop_back.
  by rewrite last_snoc, removelast_last.
Qed.

Lemma to_int_small (z : Z) : (0 ≤ z ≤ INT_MAX)%Z → to_int z = z.
Proof.
  unfold to_int, INT_MAX. intros Hz.
  rewrite Z.mod_small; lia.
Qed.
End dlist_facts.

Section lru_facts.
Implicit Types (c : LRUCache) (key value : Z) (it : ListIt).

Lemma lru_wf_lookup c key it :
  lru_wf c → (mp c !! key = Some it ↔ ∃ v, (it, (key, v)) ∈ dll c).
Proof.
  intros [Hn Hk Hi]. rewrite Hi.
  rewrite <-elem_of_list_to_map by (by rewrite index_of_keys).
  unfold index_of. rewrite list_elem_of_fmap. split.
  - intros ([i [k v]] & [= -> ->] & Hin). by exists v.
  - intros [v Hin]. by exists (it, (key, v)).
Qed.

Lemma lru_wf_lookup_None c key :
  lru_wf c → (mp c !! key = None ↔ key ∉ DList.keys (dll c)).
Proof.
  intros [Hn Hk Hi]. by rewrite Hi, <-not_elem_of_list_to_map, index_of_keys.
Qed.

Lemma lru_wf_size c : lru_wf c → size (mp c) = length (dll c).
Proof.
  intros [Hn Hk Hi]. rewrite Hi, map_size_list_to_map.
  - unfold index_of. by rewrite length_fmap.
  - by rewrite index_of_keys.
Qed.

(** A permutation of the list keeps the structure. *)
Lemma lru_wf_perm c l :
  lru_wf c → l ≡ₚ dll c → lru_wf (mkLRU (cap c) l (mp c)).
Proof.
  intros [Hn Hk Hi] Hp. split; simpl.
  - by rewrite Hp.
  - unfold DList.keys. by rewrite Hp.
  - rewrite Hi. apply list_to_map_proper.
    + by rewrite index_of_keys.
    + unfold index_of. by rewrite Hp.
Qed.

Lemma LRU_new_wf capacity : lru_wf (LRU_new capacity).
Proof. split; simpl; [constructor..|done]. Qed.
End lru_facts.

Section lru_steps.
Implicit Types (c : LRUCache) (key value : Z) (it : ListIt).

(** A hit moves the entry to the front and returns its value. *)
Lemma get_hit c key it :
  lru_wf c → mp c !! key = Some it →
  ∃ v, (it, (key, v)) ∈ dll c
    ∧ get key c =
        Done (v, mkLRU (cap c) ((it, (key, v)) :: DList.unlink it (dll c))
                   (mp c)).
Proof.
  intros Hwf Hit. pose proof Hwf as [Hn Hk Hi].
  apply (lru_wf_lookup c key it Hwf) in Hit as Hin. destruct Hin as [v Hin].
  exists v. split; [done|].
  assert (it ∈ (dll c).*1) as Hid
    by (apply list_elem_of_fmap; by exists (it, (key, v))).
  destruct (deref_node it _ Hid) as (kv & E & Hin').
  assert (kv = (key, v)) as ->.
  { by eapply node_unique. }
  unfold get, DList.splice_front. rewrite Hit, E. simpl.
  by rewrite decide_True.
Qed.

Lemma get_miss_eq c key :
  mp c !! key = None → get key c = Done (NOT_FOUND, c).
Proof. intros E. unfold get. by rewrite E. Qed.

Lemma get_wf c key :
  lru_wf c →
  ∃ v c', get key c = Done (v, c')
    ∧ lru_wf c' ∧ cap c' = cap c ∧ dll c' ≡ₚ dll c.
Proof.
  intros Hwf. destruct (mp c !! key) as [it|] eqn:E.
  - destruct (get_hit c key it Hwf E) as (v & Hin & ->).
    assert ((it, (key, v)) :: DList.unlink it (dll c) ≡ₚ dll c) as Hp
      by (apply unlink_perm; [apply Hwf|done]).
    eexists _, _. split; [done|]. split_and!; [|done..].
    by apply lru_wf_perm.
  - rewrite get_miss_eq by done. by eexists _, _.
Qed.

(** [put] of a cached key. *)
Lemma put_hit_wf c key value it :
  lru_wf c → mp c !! key = Some it →
  ∃ c', put key value c = Done c'
    ∧ lru_wf c' ∧ cap c' = cap c ∧ length (dll c') = length (dll c).
Proof.
  intros Hwf Hit. pose proof Hwf as [Hn Hk Hi].
  apply (lru_wf_lookup c key it Hwf) in Hit as Hin. destruct Hin as [v Hin].
  assert (it ∈ (dll c).*1) as Hid
    by (apply list_elem_of_fmap; by exists (it, (key, v))).
  destruct (assign_second_index it value _ Hid) as (l & El & E1 & E2 & E3).
  assert (lru_wf (mkLRU (cap c) l (mp c))) as Hwf1.
  { split; simpl; [by rewrite E1| |by rewrite E2].
    by rewrite <-index_of_keys, E2, index_of_keys. }
  destruct (splice_front_perm it l) as (kv & Es & Hp);
    [by rewrite E1..|].
  unfold put. rewrite Hit, El. simpl. rewrite Es. simpl.
  eexists. split; [done|]. split_and!; [|done|].
  - by apply (lru_wf_perm _ _ Hwf1).
  - simpl. change (length ((it, kv) :: DList.unlink it l) = length (dll c)).
    by rewrite Hp.
Qed.

(** The eviction branch, on a list that is not empty. *)
Lemma evict_wf c :
  lru_wf c → dll c ≠ [] →
  ∃ c', evict c = Done c'
    ∧ lru_wf c' ∧ cap c' = cap c
    ∧ length (dll c') + 1 = length (dll c)
    ∧ ∀ key, mp c !! key = None → mp c' !! key = None.
Proof.
  intros [Hn Hk Hi] Hne.
  destruct (snoc_cases (dll c)) as [?|(l & [i [k v]] & E)]; [done|].
  destruct (back_snoc l (i, (k, v))) as [Eb Ep].
  unfold evict. rewrite E, Eb, Ep. simpl.
  eexists. split; [done|].
  rewrite E in Hn, Hk. unfold DList.keys in Hk.
  rewrite fmap_app in Hn. rewrite fmap_app in Hk.
  apply NoDup_app in Hn as (Hn & _ & _).
  apply NoDup_app in Hk as (Hk & Hk' & _).
  assert (k ∉ (index_of l).*1) as Hkl.
  { rewrite index_of_keys. intros ?. eapply Hk'; [done|]. by left. }
  split_and!; simpl.
  - split; simpl; [done..|].
    rewrite Hi, E. unfold index_of at 1. rewrite fmap_app. simpl.
    rewrite list_to_map_snoc by done.
    apply delete_insert_id. by apply not_elem_of_list_to_map_1.
  - done.
  - rewrite length_app. simpl. lia.
  - intros key Hkey. apply lookup_delete_None. by right.
Qed.

(** Insertion of a new entry at the front. *)
Lemma emplace_wf c key value :
  lru_wf c → mp c !! key = None →
  let l := DList.emplace_front (key, value) (dll c) in
  lru_wf (mkLRU (cap c) l (<[key := DList.begin l]> (mp c))).
Proof.
  intros Hwf Hkey. pose proof Hwf as [Hn Hk Hi]. simpl.
  split; simpl.
  - apply NoDup_cons. split; [apply fresh_is_fresh|done].
  - apply NoDup_cons. split; [|done].
    by apply (lru_wf_lookup_None c key Hwf).
  - by rewrite Hi.
Qed.

(** [put] of a key that is not cached succeeds unless it evicts from an
    empty list. *)
Lemma put_miss_wf c key value :
  lru_wf c → mp c !! key = None → (at_capacity c → dll c ≠ []) →
  ∃ c', put key value c = Done c'
    ∧ lru_wf c' ∧ cap c' = cap c
    ∧ length (dll c') =
        (if decide (at_capacity c) then length (dll c)
         else length (dll c) + 1).
Proof.
  intros Hwf Hkey Hne. unfold put, at_capacity in *. rewrite Hkey.
  case_decide as Hcap.
  - destruct (evict_wf c Hwf (Hne Hcap)) as (c1 & -> & Hwf1 & Ec & El & Hm).
    simpl. eexists. split; [done|].
    split_and!; [by apply emplace_wf; auto|done|simpl; lia].
  - simpl. eexists. split; [done|].
    split_and!; [by apply emplace_wf|done|simpl; lia].
Qed.

Lemma put_miss_empty_full c key value :
  mp c !! key = None → at_capacity c → dll c = [] →
  put key value c = Undefined back_of_empty.
Proof.
  intros Hkey Hcap He. unfold put, at_capacity in *. rewrite Hkey.
  rewrite decide_True by done. unfold evict. by rewrite He.
Qed.

Lemma put_wf c key value :
  lru_wf c → (at_capacity c → dll c ≠ []) →
  ∃ c', put key value c = Done c'
    ∧ lru_wf c' ∧ cap c' = cap c
    ∧ (length (dll c') = length (dll c)
       ∨ ¬ at_capacity c ∧ length (dll c') = length (dll c) + 1).
Proof.
  intros Hwf Hne. destruct (mp c !! key) as [it|] eqn:E.
  - destruct (put_hit_wf c key value it Hwf E) as (c' & ? & ? & ? & ?).
    exists c'. by eauto.
  - destruct (put_miss_wf c key value Hwf E Hne) as (c' & ? & ? & ? & El).
    exists c'. split_and!; [done..|]. case_decide; by eauto.
Qed.
End lru_steps.

(** ** The cache: runs of operations *)

Section lru_runs.
Implicit Types (c : LRUCache) (ops : list lru_op) (capacity : Z).

Lemma lru_run_snoc ops o c :
  lru_run (ops ++ [o]) c = lru_apply (lru_run ops c) o.
Proof. unfold lru_run. by rewrite fold_left_app. Qed.

(** With a capacity other than [0] the test of the eviction branch fails on
    the empty list. *)
Lemma at_capacity_nonempty c : cap c ≠ 0%Z → at_capacity c → dll c ≠ [].
Proof.
  unfold at_capacity. intros Hc Hcap E. rewrite E in Hcap.
  change (to_int 0 = cap c) in Hcap.
  rewrite to_int_small in Hcap by (unfold INT_MAX; lia). done.
Qed.

Lemma not_at_capacity_room c :
  (Z.of_nat (length (dll c)) ≤ cap c ≤ INT_MAX)%Z → ¬ at_capacity c →
  (Z.of_nat (length (dll c)) + 1 ≤ cap c)%Z.
Proof.
  unfold at_capacity. intros Hle Hcap.
  rewrite to_int_small in Hcap by lia. lia.
Qed.

(** Every run from a new cache whose capacity is not [0] stays within
    defined behaviour and keeps the structure; with a capacity that an
    [int] can hold and a size can reach, it keeps the size bound. *)
Lemma lru_run_ok capacity ops :
  capacity ≠ 0%Z →
  ∃ out c, lru_run ops (LRU_new capacity) = Done (out, c)
    ∧ lru_wf c ∧ cap c = capacity
    ∧ ((0 ≤ capacity ≤ INT_MAX)%Z →
       (Z.of_nat (length (dll c)) ≤ capacity)%Z).
Proof.
  intros Hc. induction ops as [|o ops IH] using rev_ind.
  { exists [], (LRU_new capacity).
    split_and!; [done|apply LRU_new_wf|done|simpl; lia]. }
  destruct IH as (out & c & E & Hwf & Ecap & Hsize).
  rewrite lru_run_snoc, E. destruct o as [key|key value]; simpl.
  - destruct (get_wf c key Hwf) as (v & c' & -> & Hwf' & Ec' & Hp).
    simpl. exists (out ++ [v]), c'.
    split_and!; [done|done|congruence|]. rewrite Hp. exact Hsize.
  - destruct (put_wf c key value Hwf) as (c' & -> & Hwf' & Ec' & Hl).
    { apply at_capacity_nonempty. congruence. }
    simpl. exists out, c'. split_and!; [done|done|congruence|].
    intros Hrange. specialize (Hsize Hrange).
    destruct Hl as [->|[Hn ->]]; [done|].
    pose proof (not_at_capacity_room c) as Hroom.
    rewrite Ecap in Hroom. specialize (Hroom ltac:(lia) Hn). lia.
Qed.
End lru_runs.

(** C4: for a cache constructed with a positive capacity (one that an [int]
    holds), every sequence of [get] and [put] runs to completion, and in the
    state it reaches the index has an entry for a key exactly when the
    recency list has a node with that key, the index entry designates that
    node, no key occurs in two nodes, and the index and the list have the
    same size, which is at most the capacity. *)
Theorem cache_invariant (capacity : Z) (ops : list lru_op) :
  (1 ≤ capacity ≤ INT_MAX)%Z →
  ∃ out c, lru_run ops (LRU_new capacity) = Done (out, c)
    ∧ (∀ key it, mp c !! key = Some it ↔ ∃ v, (it, (key, v)) ∈ dll c)
    ∧ (∀ key, is_Some (mp c !! key) ↔ key ∈ DList.keys (dll c))
    ∧ NoDup (DList.keys (dll c))
    ∧ NoDup (dll c).*1
    ∧ size (mp c) = length (dll c)
    ∧ (Z.of_nat (length (dll c)) ≤ capacity)%Z.
Proof.
  intros Hc.
  destruct (lru_run_ok capacity ops ltac:(lia)) as (out & c & E & Hwf & _ & Hs).
  exists out, c. split_and!; [done| | |apply Hwf|apply Hwf| |apply Hs; lia].
  - intros key it. by apply lru_wf_lookup.
  - intros key. destruct (mp c !! key) as [it|] eqn:Ek.
    + split; [intros _|by eauto].
      destruct (decide (key ∈ DList.keys (dll c))) as [|Hn]; [done|].
      apply (lru_wf_lookup_None c key Hwf) in Hn. congruence.
    + split; [by intros [? ?]|]. intros Hin.
      by apply (lru_wf_lookup_None c key Hwf) in Ek.
  - by apply lru_wf_size.
Qed.

Lemma cache_invariant_witness :
  ∃ out c, lru_run [Put 1 1; Put 2 2; Get 1; Put 3 3] (LRU_new 2) = Done (out, c)
    ∧ size (mp c) = length (dll c)
    ∧ (Z.of_nat (length (dll c)) ≤ 2)%Z.
Proof.
  destruct (cache_invariant 2 [Put 1 1; Put 2 2; Get 1; Put 3 3])
    as (out & c & E & _ & _ & _ & _ & Hs & Hc).
  { unfold INT_MAX. lia. }
  by exists out, c.
Defined.

(** C8: [get] of a key that the cache does not hold returns [NOT_FOUND], that
    is [-1], as a defined outcome, and leaves the cache as it is: list, index
    and capacity.  This holds in every state for a key that is not in the
    index, and in every well-formed state for a key that is in no node of
    the recency list. *)
Theorem get_miss_no_effect (c : LRUCache) (key : Z) :
  (mp c !! key = None → get key c = Done ((-1)%Z, c))
  ∧ (lru_wf c → key ∉ DList.keys (dll c) → get key c = Done ((-1)%Z, c)).
Proof.
  split.
  - apply get_miss_eq.
  - intros Hwf Hk. apply get_miss_eq. by apply lru_wf_lookup_None.
Qed.

Lemma get_miss_no_effect_witness :
  get 7 (mkLRU 2 [(1, (5, 50)%Z)] {[ 5%Z := 1 ]})
  = Done ((-1)%Z, mkLRU 2 [(1, (5, 50)%Z)] {[ 5%Z := 1 ]}).
Proof.
  apply (proj1 (get_miss_no_effect (mkLRU 2 [(1, (5, 50)%Z)] {[ 5%Z := 1 ]}) 7)).
  vm_compute. reflexivity.
Defined.

(** C2: with capacity 2, after [put(1,1)], [put(2,2)], the call [get(1)]
    returns 1 and leaves key 2 at the back of the recency list; [put(3,3)]
    then evicts key 2, from the list and from the index; after it [get(2)]
    returns [NOT_FOUND], [get(3)] returns 3 and [get(1)] returns 1. *)
Theorem lru_demo_trace :
  ∃ c1 c2 c3 c4 c5 c6 c7,
    put 1 1 (LRU_new 2) = Done c1
    ∧ put 2 2 c1 = Done c2
    ∧ get 1 c2 = Done (1%Z, c3)
    ∧ DList.keys (dll c3) = [1; 2]%Z
    ∧ put 3 3 c3 = Done c4
    ∧ DList.keys (dll c4) = [3; 1]%Z
    ∧ mp c4 !! 2%Z = None
    ∧ get 2 c4 = Done (NOT_FOUND, c5)
    ∧ get 3 c5 = Done (3%Z, c6)
    ∧ get 1 c6 = Done (1%Z, c7).
Proof.
  exists (mkLRU 2 [(1, (1, 1)%Z)] {[ 1%Z := 1 ]}).
  exists (mkLRU 2 [(2, (2, 2)%Z); (1, (1, 1)%Z)] (<[ 2%Z := 2 ]> {[ 1%Z := 1 ]})).
  exists (mkLRU 2 [(1, (1, 1)%Z); (2, (2, 2)%Z)] (<[ 2%Z := 2 ]> {[ 1%Z := 1 ]})).
  exists (mkLRU 2 [(2, (3, 3)%Z); (1, (1, 1)%Z)] (<[ 3%Z := 2 ]> {[ 1%Z := 1 ]})).
  exists (mkLRU 2 [(2, (3, 3)%Z); (1, (1, 1)%Z)] (<[ 3%Z := 2 ]> {[ 1%Z := 1 ]})).
  exists (mkLRU 2 [(2, (3, 3)%Z); (1, (1, 1)%Z)] (<[ 3%Z := 2 ]> {[ 1%Z := 1 ]})).
  exists (mkLRU 2 [(1, (1, 1)%Z); (2, (3, 3)%Z)] (<[ 3%Z := 2 ]> {[ 1%Z := 1 ]})).
  split_and!; vm_compute; reflexivity.
Qed.

(** C10, as amended: the constructor keeps whatever capacity it is given,
    zero and negative values included.  For a cache constructed with
    capacity 0 the test of the eviction branch holds on the empty list, and
    the first [put] of any key takes [back()] of that empty list.  For every
    other capacity, from 1 up or negative, every run stays within defined
    behaviour, and wherever the test of the eviction branch holds, the list
    is not empty.  So the eviction branch is kept to non-empty lists exactly
    when the capacity is not 0. *)
Theorem capacity_unvalidated :
  (∀ capacity : Z, LRU_new capacity = mkLRU capacity [] ∅)
  ∧ (∀ key value : Z,
       at_capacity (LRU_new 0) ∧ dll (LRU_new 0) = []
       ∧ evict (LRU_new 0) = Undefined back_of_empty
       ∧ put key value (LRU_new 0) = Undefined back_of_empty)
  ∧ (∀ (capacity : Z) (ops : list lru_op),
       capacity ≠ 0%Z →
       ∃ out c, lru_run ops (LRU_new capacity) = Done (out, c)
         ∧ (at_capacity c → dll c ≠ []))
  ∧ (∀ capacity : Z,
       (∀ ops : list lru_op,
          ∃ out c, lru_run ops (LRU_new capacity) = Done (out, c)
            ∧ (at_capacity c → dll c ≠ [])) →
       capacity ≠ 0%Z).
Proof.
  split_and!.
  - done.
  - intros key value. split_and!; [done..|].
    by apply put_miss_empty_full.
  - intros capacity ops Hc.
    destruct (lru_run_ok capacity ops Hc) as (out & c & E & _ & Ec & _).
    exists out, c. split; [done|].
    apply at_capacity_nonempty. congruence.
  - intros capacity Hguard ->.
    destruct (Hguard []) as (out & c & E & Hne).
    injection E as _ <-. by apply Hne.
Qed.

Lemma capacity_unvalidated_witness :
  ∃ out c, lru_run [Put 1 1; Put 2 2] (LRU_new 1) = Done (out, c)
    ∧ (at_capacity c → dll c ≠ []).
Proof.
  destruct capacity_unvalidated as (_ & _ & H & _).
  apply (H 1%Z [Put 1 1; Put 2 2]). lia.
Defined.

(** C10, as stated: the eviction branch runs on a non-empty list only, in
    every run, also for the capacity -1, which is not 1 or more. *)
Lemma guard_holds_at_capacity_minus_one :
  (∀ ops : list lru_op,
     ∃ out c, lru_run ops (LRU_new (-1)) = Done (out, c)
       ∧ (at_capacity c → dll c ≠ []))
  ∧ ¬ (1 ≤ -1)%Z.
Proof.
  split; [|lia]. intros ops.
  destruct (lru_run_ok (-1) ops ltac:(lia)) as (out & c & E & _ & Ec & _).
  exists out, c. split; [done|].
  apply at_capacity_nonempty. lia.
Qed.

(** ** The tracker against its reference model *)

Section tracker_model.
Implicit Types (s : SlidingMedian) (x : Z) (ops : list sm_op).

Lemma remove_first_present x (l : list Z) :
  x ∈ l → l ≡ₚ x :: remove_first x l.
Proof.
  induction l as [|y l IH]; simpl; [by intros ?%elem_of_nil|].
  intros Hx. case_decide as Hy; [by subst|].
  apply elem_of_cons in Hx as [?|Hx]; [congruence|].
  by rewrite Permutation_swap, <-IH.
Qed.

Lemma remove_first_absent x (l : list Z) : x ∉ l → remove_first x l = l.
Proof.
  induction l as [|y l IH]; simpl; [done|].
  rewrite not_elem_of_cons. intros [? ?].
  case_decide; [congruence|]. by rewrite IH.
Qed.

Lemma bag_run_snoc ops o : bag_run (ops ++ [o]) = bag_apply (bag_run ops) o.
Proof. unfold bag_run. by rewrite fold_left_app. Qed.

Lemma erase_absent s x : sm_inv s → x ∉ lo s ++ hi s → erase x s = s.
Proof.
  intros [_ Hs] Hx. rewrite not_elem_of_app in Hx. destruct Hx.
  unfold erase. rewrite remove_one_absent by done. by apply balance_idle.
Qed.

Lemma sm_run_bag ops :
  lo (sm_run ops) ++ hi (sm_run ops) ≡ₚ bag_run ops.
Proof.
  induction ops as [|o ops IH] using rev_ind; [done|].
  rewrite sm_run_snoc, bag_run_snoc.
  pose proof (sm_run_inv ops) as Hinv. destruct o as [x|x]; simpl.
  - by rewrite insert_perm, IH.
  - destruct (decide (x ∈ lo (sm_run ops) ++ hi (sm_run ops))) as [Hx|Hx].
    + pose proof (erase_present_perm x _ (proj1 Hinv) Hx) as He.
      rewrite IH in He, Hx.
      rewrite (remove_first_present x (bag_run ops) Hx) in He at 1.
      by apply Permutation_cons_inv in He.
    + rewrite erase_absent by done. rewrite IH in Hx.
      by rewrite remove_first_absent.
Qed.

Lemma sm_inv_half s :
  sm_inv s → length (lo s) = (length (lo s ++ hi s) + 1) `div` 2.
Proof.
  intros [_ Hs]. rewrite length_app. unfold sizes_ok in Hs.
  destruct Hs as [E|E]; rewrite E.
  - apply (Nat.div_unique _ 2 _ 1); lia.
  - apply (Nat.div_unique _ 2 _ 0); lia.
Qed.
Lemma tracker_is_sorted_bag_aux ops :
  lo (sm_run ops) ++ hi (sm_run ops) = merge_sort Z.le (bag_run ops)
  ∧ sizes_ok (sm_run ops).
Proof.
  pose proof (sm_run_inv ops) as Hinv. split; [|apply Hinv].
  apply (StronglySorted_unique Z.le); [apply Hinv| |].
  - apply StronglySorted_merge_sort; apply _.
  - by rewrite merge_sort_Permutation, sm_run_bag.
Qed.
End tracker_model.

(** X1: after any sequence of operations, [lo] followed by [hi] is the
    ascending arrangement of the values that the sequence leaves active, and
    [lo] is its first half, the longer one when the count is odd. *)
Theorem tracker_is_sorted_bag (ops : list sm_op) :
  lo (sm_run ops) ++ hi (sm_run ops) = merge_sort Z.le (bag_run ops)
  ∧ lo (sm_run ops)
    = take ((length (bag_run ops) + 1) `div` 2) (merge_sort Z.le (bag_run ops))
  ∧ hi (sm_run ops)
    = drop ((length (bag_run ops) + 1) `div` 2) (merge_sort Z.le (bag_run ops)).
Proof.
  pose proof (sm_run_inv ops) as Hinv. pose proof (sm_run_bag ops) as Hb.
  destruct (tracker_is_sorted_bag_aux ops) as [E _].
  pose proof (sm_inv_half _ Hinv) as Hh. rewrite Hb in Hh.
  split; [done|]. rewrite <-E, <-Hh.
  by rewrite take_app_length, drop_app_length.
Qed.

Lemma median_middle_of_run (ops : list sm_op) :
  let l := merge_sort Z.le (bag_run ops) in
  let n := length l in
  (n = 0 → median (sm_run ops) = Done (S754_zero false))
  ∧ (∀ m : Z, n `mod` 2 = 1 → l !! (n `div` 2) = Some m →
       median (sm_run ops) = Done (Double.of_Z m))
  ∧ (∀ a b : Z, 0 < n → n `mod` 2 = 0 →
       l !! (n `div` 2 - 1) = Some a → l !! (n `div` 2) = Some b →
       median (sm_run ops)
       = Done (Double.div (Double.add (Double.of_Z a) (Double.of_Z b))
                 Double.two)).
Proof.
  cbv zeta. destruct (tracker_is_sorted_bag_aux ops) as [E Hs].
  rewrite <-E. rewrite length_app. unfold sizes_ok in Hs.
  set (s := sm_run ops) in *.
  pose proof (Nat.div_mod_eq (length (lo s) + length (hi s)) 2) as Hdm.
  unfold median, MSet.deref, MSet.prev_end, MSet.begin. split_and!.
  - intros Hn. rewrite decide_True; [done|].
    destruct (lo s), (hi s); simpl in *; by try lia.
  - intros m Hodd Hm.
    assert (length (lo s) = length (hi s) + 1) as El by lia.
    assert ((length (lo s) + length (hi s)) `div` 2 = pred (length (lo s)))
      as Hhalf by lia.
    rewrite Hhalf, lookup_app_l in Hm by lia.
    rewrite decide_False, decide_True by
      (lia || (intros [E0 _]; rewrite E0 in El; simpl in El; lia)).
    by rewrite Hm.
  - intros a b Hpos Heven Ha Hb.
    assert (length (lo s) = length (hi s)) as El by lia.
    assert ((length (lo s) + length (hi s)) `div` 2 = length (lo s))
      as Hhalf by lia.
    rewrite Hhalf in Ha, Hb.
    rewrite lookup_app_l in Ha by lia.
    rewrite lookup_app_r, Nat.sub_diag in Hb by lia.
    rewrite !decide_False by
      (lia || (intros [E0 _]; rewrite E0 in El, Hpos; simpl in *; lia)).
    replace (length (lo s) - 1) with (pred (length (lo s))) in Ha by lia.
    by rewrite Ha, Hb.
Qed.

(** X2: [median()] is the middle of the ascending arrangement of the active
    values: for an odd count the middle value, for an even count the [double]
    quotient by [2.0] of the [double] sum of the two middle values, and the
    sentinel [0] when there is none.  It never dereferences [end()]. *)
Theorem median_is_middle (ops : list sm_op) :
  let l := merge_sort Z.le (bag_run ops) in
  let n := length l in
  (n = 0 → median (sm_run ops) = Done (S754_zero false))
  ∧ (∀ m : Z, n `mod` 2 = 1 → l !! (n `div` 2) = Some m →
       median (sm_run ops) = Done (Double.of_Z m))
  ∧ (∀ a b : Z, 0 < n → n `mod` 2 = 0 →
       l !! (n `div` 2 - 1) = Some a → l !! (n `div` 2) = Some b →
       median (sm_run ops)
       = Done (Double.div (Double.add (Double.of_Z a) (Double.of_Z b))
                 Double.two)).
Proof. exact (median_middle_of_run ops). Qed.

Lemma median_is_middle_witness :
  median (sm_run [Insert 5; Insert 1; Insert 3; Erase 9])
  = Done (Double.of_Z 3).
Proof.
  destruct (median_is_middle [Insert 5; Insert 1; Insert 3; Erase 9])
    as (_ & H & _).
  apply H; vm_compute; reflexivity.
Defined.

Section tracker_algebra.
Implicit Types (s : SlidingMedian) (x : Z) (ops : list sm_op).

Lemma sm_run_determined ops1 ops2 :
  bag_run ops1 ≡ₚ bag_run ops2 → sm_run ops1 = sm_run ops2.
Proof.
  intros Hp. apply sm_inv_unique; [apply sm_run_inv..|].
  by rewrite !sm_run_bag.
Qed.

Lemma insert_erase_inv x s :
  sm_inv s → x ∈ lo s ++ hi s → insert x (erase x s) = s.
Proof.
  intros Hs Hx. pose proof (erase_inv x s Hs) as He.
  apply sm_inv_unique; [by apply insert_inv|done|].
  rewrite insert_perm by done. symmetry.
  by apply erase_present_perm; [apply Hs|].
Qed.

(** The loop bodies of [balance] keep the values, whatever the state. *)
Lemma move_max_to_hi_perm s :
  lo (move_max_to_hi s) ++ hi (move_max_to_hi s) ≡ₚ lo s ++ hi s.
Proof.
  unfold move_max_to_hi.
  destruct (lo s !! MSet.prev_end (lo s)) as [v|] eqn:Ev; [|done].
  destruct (snoc_cases (lo s)) as [E|(l' & m & E)].
  { by rewrite E in Ev. }
  destruct (MSet_prev_end_snoc l' m) as [E1 E2].
  rewrite E, E1 in Ev. injection Ev as <-. rewrite E, E2; simpl.
  by rewrite MSet_insert_perm, <-app_assoc.
Qed.

Lemma move_min_to_lo_perm s :
  lo (move_min_to_lo s) ++ hi (move_min_to_lo s) ≡ₚ lo s ++ hi s.
Proof.
  unfold move_min_to_lo, MSet.begin, MSet.erase.
  destruct (hi s) as [|m h] eqn:E; simpl; [by rewrite E|].
  rewrite MSet_insert_perm. simpl. by rewrite Permutation_middle.
Qed.

Lemma shrink_lo_perm fuel s :
  lo (shrink_lo fuel s).2 ++ hi (shrink_lo fuel s).2 ≡ₚ lo s ++ hi s.
Proof.
  revert s. induction fuel as [|fuel IH]; intros s; simpl.
  { by case_decide. }
  case_decide; [|done]. specialize (IH (move_max_to_hi s)).
  destruct (shrink_lo fuel (move_max_to_hi s)); simpl in *.
  by rewrite IH, move_max_to_hi_perm.
Qed.

Lemma grow_lo_perm fuel s :
  lo (grow_lo fuel s).2 ++ hi (grow_lo fuel s).2 ≡ₚ lo s ++ hi s.
Proof.
  revert s. induction fuel as [|fuel IH]; intros s; simpl.
  { by case_decide. }
  case_decide; [|done]. specialize (IH (move_min_to_lo s)).
  destruct (grow_lo fuel (move_min_to_lo s)); simpl in *.
  by rewrite IH, move_min_to_lo_perm.
Qed.

Lemma balance_perm s : lo (balance s) ++ hi (balance s) ≡ₚ lo s ++ hi s.
Proof.
  unfold balance, balance_run.
  pose proof (shrink_lo_perm (length (lo s)) s) as E1.
  destruct (shrink_lo (length (lo s)) s) as [n1 s1]; simpl in E1.
  pose proof (grow_lo_perm (length (hi s1)) s1) as E2.
  destruct (grow_lo (length (hi s1)) s1) as [n2 s2]; simpl in *.
  by rewrite E2.
Qed.
End tracker_algebra.

(** X3: the state of the tracker depends only on the values that are
    active, not on the order in which they were inserted and erased: two
    sequences of operations that leave the same values active leave the same
    [lo] and the same [hi]. *)
Theorem tracker_state_determined (ops1 ops2 : list sm_op) :
  bag_run ops1 ≡ₚ bag_run ops2 → sm_run ops1 = sm_run ops2.
Proof. apply sm_run_determined. Qed.

Lemma tracker_state_determined_witness :
  sm_run [Insert 7; Insert 1; Insert 2] = sm_run [Insert 7; Insert 2; Insert 1].
Proof.
  apply (tracker_state_determined [Insert 7; Insert 1; Insert 2]
           [Insert 7; Insert 2; Insert 1]).
  vm_compute. apply perm_swap.
Defined.

(** X4: in every reachable state, [erase(x)] of an active value followed by
    [insert(x)] gives back the state. *)
Theorem erase_insert_roundtrip (ops : list sm_op) (x : Z) :
  x ∈ lo (sm_run ops) ++ hi (sm_run ops) →
  insert x (erase x (sm_run ops)) = sm_run ops.
Proof. apply insert_erase_inv, sm_run_inv. Qed.

Lemma erase_insert_roundtrip_witness :
  insert 2 (erase 2 (sm_run [Insert 1; Insert 2; Insert 2]))
  = sm_run [Insert 1; Insert 2; Insert 2].
Proof.
  apply (erase_insert_roundtrip [Insert 1; Insert 2; Insert 2] 2).
  apply (bool_decide_unpack _); vm_compute; exact I.
Defined.

(** X5: from any pair of multisets, however unbalanced, the two loops of
    [balance()] stop, with [lo] as large as [hi] or larger by one, and with
    the same values in the two multisets together. *)
Theorem balance_from_any_state (s : SlidingMedian) :
  (length (lo (balance s)) = length (hi (balance s))
   ∨ length (lo (balance s)) = length (hi (balance s)) + 1)
  ∧ lo (balance s) ++ hi (balance s) ≡ₚ lo s ++ hi s.
Proof. split; [apply balance_sizes_ok|apply balance_perm]. Qed.

(** ** The demonstration loop, for any input and window size *)

Section window_loop.
Implicit Types (nums w : list Z) (k i j : nat).






Lemma at_index_nat nums i x :
  nums !! i = Some x → at_index nums (Z.of_nat i) = Done x.
Proof.
  intros Hx. unfold at_index. rewrite decide_True by lia.
  by rewrite Nat2Z.id, Hx.
Qed.

End window_loop.

Section window_results.
Implicit Types (nums w : list Z) (k i j : nat).




(** Without a full window the loop records nothing. *)
Lemma window_loop_short nums (k : Z) i :
  (Z.of_nat (length nums) < k)%Z → i ≤ length nums →
  fold_left (window_step nums k) (seq 0 i) (Done (SM_new, []))
  = Done (sm_run (Insert <$> take i nums), []).
Proof.
  intros Hk. induction i as [|i IH]; intros Hi; [done|].
  rewrite seq_S, fold_left_app, IH by lia. simpl.
  destruct (lookup_lt_is_Some_2 nums i) as [x Hx]; [lia|].
  rewrite (at_index_nat _ _ _ Hx). simpl.
  rewrite decide_False by lia.
  rewrite (take_S_r _ _ _ Hx), fmap_app. csimpl. by rewrite sm_run_snoc.
Qed.
End window_results.





(** X8: when the input is shorter than the window size, the loop of [main]
    records no median and erases nothing: it ends with a tracker that holds
    the whole input. *)
Theorem window_medians_short (nums : list Z) (k : Z) :
  (Z.of_nat (length nums) < k)%Z →
  window_medians nums k = Done []
  ∧ fold_left (window_step nums k) (seq 0 (length nums)) (Done (SM_new, []))
    = Done (sm_run (Insert <$> nums), []).
Proof.
  intros Hk.
  pose proof (window_loop_short nums k (length nums) Hk ltac:(lia)) as E.
  rewrite firstn_all in E. unfold window_medians. by rewrite E.
Qed.

Lemma window_medians_short_witness :
  window_medians [4; 1]%Z 3 = Done [].
Proof. apply (window_medians_short [4; 1]%Z 3). simpl. lia. Defined.

(** ** The cache against its reference model *)

Section lru_model.
Implicit Types (c : LRUCache) (l : list DList.node) (key value : Z)
  (it : ListIt).

Lemma entries_length c : length (entries c) = length (dll c).
Proof. unfold entries. by rewrite length_fmap. Qed.

Lemma keys_entries l : DList.keys l = (l.*2).*1.
Proof. unfold DList.keys. by rewrite <-list_fmap_compose. Qed.

(** A key is in one node only. *)
Lemma key_unique l key it1 it2 v1 v2 :
  NoDup (DList.keys l) →
  (it1, (key, v1)) ∈ l → (it2, (key, v2)) ∈ l → it1 = it2 ∧ v1 = v2.
Proof.
  induction l as [|[i [k v]] l IH]; csimpl; [by intros _ ?%elem_of_nil|].
  rewrite NoDup_cons. intros [Hk Hnd] H1 H2.
  assert (∀ it' v', (it', (key, v')) ∈ l → key ∈ DList.keys l) as Hin.
  { intros it' v' H. apply list_elem_of_fmap. by exists (it', (key, v')). }
  apply elem_of_cons in H1 as [E1|H1]; apply elem_of_cons in H2 as [E2|H2];
    simplify_eq; eauto.
  - destruct Hk. by eapply Hin.
  - destruct Hk. by eapply Hin.
Qed.

Lemma assoc_find_node l key it v :
  NoDup (DList.keys l) → (it, (key, v)) ∈ l → assoc_find key l.*2 = Some v.
Proof.
  induction l as [|[i [k v']] l IH]; csimpl; [by intros _ ?%elem_of_nil|].
  intros Hnd Hin. case_decide as Hk; simpl in Hk.
  - subst k. f_equal.
    by destruct (key_unique ((i, (key, v')) :: l) key i it v' v Hnd);
      [left|done|].
  - apply NoDup_cons in Hnd as [_ Hnd].
    apply elem_of_cons in Hin as [?|Hin]; [by simplify_eq|]. by apply IH.
Qed.

Lemma assoc_find_absent l key :
  key ∉ DList.keys l → assoc_find key l.*2 = None.
Proof.
  induction l as [|[i [k v']] l IH]; csimpl; [done|].
  rewrite not_elem_of_cons. intros [? ?].
  case_decide; simpl in *; [congruence|]. by apply IH.
Qed.

(** Unlinking the node of a key drops the key from the entries. *)
Lemma unlink_entries l key it v :
  NoDup l.*1 → NoDup (DList.keys l) → (it, (key, v)) ∈ l →
  (DList.unlink it l).*2 = assoc_drop key l.*2.
Proof.
  intros Hn Hk Hin.
  assert (∀ n : DList.node, n ∈ l → n.1 = it ↔ n.2.1 = key) as Hiff.
  { intros [i [k v']] Hn'; simpl. split; intros ->.
    - by pose proof (node_unique _ _ _ _ Hn Hin Hn') as [= <- _].
    - by destruct (key_unique _ _ _ _ _ _ Hk Hin Hn'). }
  clear Hn Hk Hin. unfold assoc_drop.
  induction l as [|[i [k v']] l IH]; [done|].
  assert (i = it ↔ k = key) as Hhd by (apply (Hiff (i, (k, v'))); by left).
  assert ((DList.unlink it l).*2 = filter (λ e, e.1 ≠ key) l.*2) as IH'.
  { apply IH. intros n Hn'. apply Hiff. by right. }
  csimpl. destruct (decide (i = it)) as [->|Hne].
  - rewrite unlink_cons_eq, filter_cons_False by (simpl; tauto). done.
  - rewrite unlink_cons_ne, filter_cons_True by (simpl; tauto).
    csimpl. by rewrite IH'.
Qed.

Lemma removelast_fmap {A B} (f : A → B) (k : list A) :
  removelast (f <$> k) = f <$> removelast k.
Proof.
  destruct (snoc_cases k) as [->|(k' & a & ->)]; [done|].
  rewrite fmap_app. csimpl. by rewrite !removelast_last.
Qed.

(** Assigning through an iterator and then unlinking its node. *)
Lemma assign_second_unlink it value l l' :
  DList.assign_second it value l = Done l' →
  DList.unlink it l' = DList.unlink it l.
Proof.
  unfold DList.assign_second. destruct (DList.deref it l); [|done].
  simpl. intros [= <-].
  induction l as [|[i kv] l IH]; [done|]. csimpl.
  case_decide as Hi; simpl in Hi.
  - subst. by rewrite !unlink_cons_eq.
  - by rewrite !unlink_cons_ne, IH.
Qed.

Lemma assign_second_deref it value l l' k v :
  DList.assign_second it value l = Done l' →
  DList.deref it l = Done (k, v) →
  DList.deref it l' = Done (k, value).
Proof.
  unfold DList.assign_second. intros E Hd. rewrite Hd in E.
  simpl in E. injection E as <-.
  induction l as [|[i kv] l IH]; [done|]. csimpl. simpl in Hd.
  destruct (decide (i = it)) as [->|Hne]; simpl.
  - rewrite decide_True by done. by injection Hd as ->.
  - rewrite decide_False by done. auto.
Qed.
End lru_model.

Section lru_refinement.
Implicit Types (c : LRUCache) (key value capacity : Z) (it : ListIt).

Lemma get_refines c key :
  lru_wf c →
  ∃ c', get key c = Done ((assoc_get key (entries c)).1, c')
    ∧ lru_wf c' ∧ cap c' = cap c ∧ mp c' = mp c
    ∧ entries c' = (assoc_get key (entries c)).2.
Proof.
  intros Hwf. pose proof Hwf as [Hn Hk Hi]. unfold assoc_get, entries.
  destruct (mp c !! key) as [it|] eqn:E.
  - destruct (get_hit c key it Hwf E) as (v & Hin & ->).
    rewrite (assoc_find_node _ _ _ _ Hk Hin). simpl.
    eexists. split; [done|]. split_and!; [|done..|]; simpl.
    + apply lru_wf_perm; [done|]. by apply unlink_perm.
    + csimpl. by rewrite (unlink_entries _ key it v).
  - rewrite get_miss_eq by done.
    apply (lru_wf_lookup_None c key Hwf) in E.
    rewrite assoc_find_absent by done. by eexists.
Qed.

Lemma put_hit_refines c key value it :
  lru_wf c → mp c !! key = Some it →
  ∃ v0, assoc_find key (entries c) = Some v0
    ∧ put key value c
      = Done (mkLRU (cap c) ((it, (key, value)) :: DList.unlink it (dll c))
                (mp c)).
Proof.
  intros Hwf Hit. pose proof Hwf as [Hn Hk Hi].
  apply (lru_wf_lookup c key it Hwf) in Hit as Hin. destruct Hin as [v0 Hin].
  exists v0. split; [by eapply assoc_find_node|].
  assert (it ∈ (dll c).*1) as Hid
    by (apply list_elem_of_fmap; by exists (it, (key, v0))).
  destruct (deref_node it _ Hid) as (kv & Ed & Hin').
  assert (kv = (key, v0)) as -> by (by eapply node_unique).
  destruct (assign_second_index it value _ Hid) as (l1 & El & _).
  pose proof (assign_second_deref _ _ _ _ _ _ El Ed) as Ed1.
  pose proof (assign_second_unlink _ _ _ _ El) as Eu.
  unfold put. rewrite Hit, El. simpl.
  unfold DList.splice_front. rewrite Ed1. simpl. by rewrite Eu.
Qed.

Lemma put_refines c key value :
  lru_wf c → (at_capacity c → dll c ≠ []) →
  ∃ c', put key value c = Done c'
    ∧ lru_wf c' ∧ cap c' = cap c
    ∧ entries c' = assoc_put (cap c) key value (entries c).
Proof.
  intros Hwf Hne. pose proof Hwf as [Hn Hk Hi].
  destruct (put_wf c key value Hwf Hne) as (c' & E & Hwf' & Ec & _).
  exists c'. split_and!; [done..|]. unfold assoc_put.
  destruct (mp c !! key) as [it|] eqn:Ekey.
  - destruct (put_hit_refines c key value it Hwf Ekey) as (v0 & -> & E').
    rewrite E' in E. injection E as <-.
    apply (lru_wf_lookup c key it Hwf) in Ekey as [v Hin].
    unfold entries. csimpl. by rewrite (unlink_entries _ key it v).
  - apply (lru_wf_lookup_None c key Hwf) in Ekey as Habs.
    unfold entries at 1 2. rewrite assoc_find_absent by done.
    rewrite entries_length. unfold put in E. rewrite Ekey in E.
    unfold at_capacity in Hne. case_decide as Hcap.
    + destruct (snoc_cases (dll c)) as [?|(l & n & El)]; [by apply Hne in Hcap|].
      destruct (back_snoc l n) as [Eb Ep].
      unfold evict in E. rewrite El, Eb, Ep in E. simpl in E.
      injection E as <-. unfold entries. simpl.
      by rewrite El, removelast_fmap, removelast_last.
    + simpl in E. by injection E as <-.
Qed.

Lemma assoc_run_snoc capacity ops o :
  assoc_run capacity (ops ++ [o])
  = assoc_apply capacity (assoc_run capacity ops) o.
Proof. unfold assoc_run. by rewrite fold_left_app. Qed.

Lemma lru_run_refines capacity ops :
  capacity ≠ 0%Z →
  ∃ c, lru_run ops (LRU_new capacity) = Done ((assoc_run capacity ops).1, c)
    ∧ lru_wf c ∧ cap c = capacity
    ∧ entries c = (assoc_run capacity ops).2.
Proof.
  intros Hc. induction ops as [|o ops IH] using rev_ind.
  { exists (LRU_new capacity). split_and!; [done|apply LRU_new_wf|done..]. }
  destruct IH as (c & E & Hwf & Ecap & Hent).
  rewrite lru_run_snoc, assoc_run_snoc, E.
  destruct o as [key|key value]; simpl.
  - destruct (get_refines c key Hwf) as (c' & -> & Hwf' & Ec' & _ & He).
    simpl. exists c'. rewrite <-Hent. split_and!; [done|done|congruence|done].
  - destruct (put_refines c key value Hwf) as (c' & -> & Hwf' & Ec' & He).
    { apply at_capacity_nonempty. congruence. }
    simpl. exists c'. rewrite <-Hent, <-Ecap.
    split_and!; [done|done|congruence|done].
Qed.
End lru_refinement.

(** X9: a cache constructed with a capacity other than 0 behaves as an
    association list kept in order of use: every sequence of [get] and [put]
    runs within defined behaviour, [get] returns what the list holds for the
    key ([-1] when it holds nothing), and the recency list holds, front to
    back, the entries of the association list. *)
Theorem cache_refines_assoc (capacity : Z) (ops : list lru_op) :
  capacity ≠ 0%Z →
  ∃ c, lru_run ops (LRU_new capacity) = Done ((assoc_run capacity ops).1, c)
    ∧ entries c = (assoc_run capacity ops).2.
Proof.
  intros Hc. destruct (lru_run_refines capacity ops Hc) as (c & E & _ & _ & He).
  by exists c.
Qed.

Lemma cache_refines_assoc_witness :
  ∃ c, lru_run [Put 1 10; Put 2 20; Get 1; Put 3 30; Get 2] (LRU_new 2)
       = Done ([10; -1]%Z, c)
    ∧ entries c = [(3, 30); (1, 10)]%Z.
Proof.
  apply (cache_refines_assoc 2 [Put 1 10; Put 2 20; Get 1; Put 3 30; Get 2]).
  lia.
Defined.

Section lru_usage.
Implicit Types (c : LRUCache) (key value capacity : Z) (it : ListIt)
  (l : list DList.node).

(** After [put] the entry of the key is the first one. *)
Lemma put_front c key value :
  lru_wf c → (at_capacity c → dll c ≠ []) →
  ∃ c' it l, put key value c = Done c'
    ∧ lru_wf c' ∧ cap c' = cap c
    ∧ dll c' = (it, (key, value)) :: l.
Proof.
  intros Hwf Hne.
  destruct (put_refines c key value Hwf Hne) as (c' & E & Hwf' & Ec & He).
  assert (∃ r, entries c' = (key, value) :: r) as [r Hr].
  { rewrite He. unfold assoc_put. destruct (assoc_find _ _); by eexists. }
  unfold entries in Hr. destruct (dll c') as [|[it kv] l] eqn:Ed; [done|].
  injection Hr as -> _. by exists c', it, l.
Qed.

(** [get] of the key of the first entry changes nothing. *)
Lemma get_front c key value it l :
  lru_wf c → dll c = (it, (key, value)) :: l →
  get key c = Done (value, c).
Proof.
  intros Hwf Ed. pose proof Hwf as [Hn Hk Hi].
  assert (mp c !! key = Some it) as Hit.
  { apply (lru_wf_lookup c key it Hwf). exists value. rewrite Ed. by left. }
  destruct (get_hit c key it Hwf Hit) as (v & Hin & ->).
  assert ((key, v) = (key, value)) as [= ->].
  { eapply node_unique; [exact Hn|exact Hin|]. rewrite Ed. by left. }
  rewrite Ed in Hn |- *. csimpl in Hn. apply NoDup_cons in Hn as [Hit' _].
  rewrite unlink_cons_eq, unlink_absent by done.
  rewrite <-Ed. by destruct c.
Qed.

(** [get] of a cached key puts its entry first. *)
Lemma get_hit_front c key v c' :
  lru_wf c → key ∈ DList.keys (dll c) → get key c = Done (v, c') →
  lru_wf c' ∧ cap c' = cap c ∧ length (dll c') = length (dll c)
  ∧ ∃ it l, dll c' = (it, (key, v)) :: l.
Proof.
  intros Hwf Hkey E.
  destruct (mp c !! key) as [it|] eqn:Hit.
  - destruct (get_hit c key it Hwf Hit) as (v' & Hin & E').
    rewrite E' in E. injection E as -> <-.
    assert ((it, (key, v)) :: DList.unlink it (dll c) ≡ₚ dll c) as Hp
      by (apply unlink_perm; [apply Hwf|done]).
    split_and!; [by apply lru_wf_perm|done| |by eexists _, _].
    simpl. change (length ((it, (key, v)) :: DList.unlink it (dll c))
                   = length (dll c)). by rewrite Hp.
  - by apply (lru_wf_lookup_None c key Hwf) in Hit.
Qed.

(** With room for two entries, [put] keeps the first entry cached. *)
Lemma put_keeps_front c key v it l key' value' :
  lru_wf c → (2 ≤ cap c ≤ INT_MAX)%Z →
  (Z.of_nat (length (dll c)) ≤ cap c)%Z →
  dll c = (it, (key, v)) :: l →
  ∃ c', put key' value' c = Done c' ∧ key ∈ DList.keys (dll c').
Proof.
  intros Hwf Hcap Hlen Ed.
  destruct (put_refines c key' value' Hwf) as (c' & E & Hwf' & Ec & He).
  { apply at_capacity_nonempty. lia. }
  exists c'. split; [done|]. rewrite keys_entries. fold (entries c'). rewrite He.
  unfold assoc_put, entries. rewrite Ed. csimpl.
  destruct (decide (key = key')) as [->|Hne].
  { csimpl. by left. }
  destruct (assoc_find key' l.*2).
  - unfold assoc_drop. rewrite filter_cons_True by done. csimpl.
    right. by left.
  - case_decide as Hfull; csimpl; [|right; by left].
    rewrite length_fmap in Hfull. rewrite Ed, length_cons in Hlen.
    change (@length (ListIt * (Z * Z))%type) with (@length DList.node) in *.
    rewrite to_int_small in Hfull by lia.
    destruct l as [|n l]; [simpl in Hfull; lia|]. right. by left.
Qed.

Lemma lru_run_undefined ops f :
  fold_left lru_apply ops (Undefined f) = Undefined f.
Proof. induction ops as [|o ops IH]; [done|]. simpl. apply IH. Qed.

Lemma assoc_drop_keys key k (l : list (Z * Z)) :
  k ∈ l.*1 → k ≠ key → k ∈ (assoc_drop key l).*1.
Proof.
  intros Hk Hne. apply list_elem_of_fmap in Hk as ([k' v] & -> & Hin).
  apply list_elem_of_fmap. exists (k', v). split; [done|].
  unfold assoc_drop. by apply list_elem_of_filter.
Qed.
End lru_usage.

(** X10: in a cache constructed with a capacity other than 0, after
    [put(key, value)] the call [get(key)] returns [value] and leaves the
    cache as [put] left it. *)
Theorem put_get_roundtrip (capacity : Z) (ops : list lru_op) (key value : Z) :
  capacity ≠ 0%Z →
  ∃ out c c', lru_run ops (LRU_new capacity) = Done (out, c)
    ∧ put key value c = Done c'
    ∧ get key c' = Done (value, c').
Proof.
  intros Hc.
  destruct (lru_run_ok capacity ops Hc) as (out & c & E & Hwf & Ec & _).
  destruct (put_front c key value Hwf) as (c' & it & l & Ep & Hwf' & _ & Ed).
  { apply at_capacity_nonempty. congruence. }
  exists out, c, c'. split_and!; [done..|]. by eapply get_front.
Qed.

Lemma put_get_roundtrip_witness :
  ∃ out c c', lru_run [Put 1 10; Put 2 20] (LRU_new 2) = Done (out, c)
    ∧ put 3 30 c = Done c'
    ∧ get 3 c' = Done (30%Z, c').
Proof. apply (put_get_roundtrip 2 [Put 1 10; Put 2 20] 3 30). lia. Defined.

(** X11: in a cache constructed with a capacity of 2 or more, the key of the
    latest [put], or of the latest [get] that found its key, is still cached
    after one more [put] of any key: the entry used last is never the one
    evicted next. *)
Theorem recently_used_survives (capacity : Z) (ops : list lru_op)
    (key key' value' : Z) :
  (2 ≤ capacity ≤ INT_MAX)%Z →
  ∃ out c, lru_run ops (LRU_new capacity) = Done (out, c)
    ∧ ∀ v c1,
        put key v c = Done c1
        ∨ (key ∈ DList.keys (dll c) ∧ get key c = Done (v, c1)) →
        ∃ c2, put key' value' c1 = Done c2 ∧ key ∈ DList.keys (dll c2).
Proof.
  intros Hc.
  destruct (lru_run_ok capacity ops ltac:(lia)) as (out & c & E & Hwf & Ec & Hs).
  specialize (Hs ltac:(lia)).
  exists out, c. split; [done|]. intros v c1 [Hput|[Hin Hget]].
  - destruct (put_front c key v Hwf) as (c1' & it & l & Ep & Hwf1 & Ec1 & Ed).
    { apply at_capacity_nonempty. lia. }
    rewrite Ep in Hput. injection Hput as ->.
    destruct (put_wf c key v Hwf) as (c1' & Ep' & _ & _ & Hl).
    { apply at_capacity_nonempty. lia. }
    rewrite Ep in Ep'. injection Ep' as <-.
    eapply put_keeps_front; [done|lia| |done].
    destruct Hl as [->|[Hn ->]]; [lia|].
    pose proof (not_at_capacity_room c ltac:(lia) Hn). lia.
  - destruct (get_hit_front c key v c1 Hwf Hin Hget)
      as (Hwf1 & Ec1 & El & it & l & Ed).
    eapply put_keeps_front; [done|lia|lia|done].
Qed.

Lemma recently_used_survives_witness :
  ∃ out c, lru_run [Put 1 10; Put 2 20] (LRU_new 2) = Done (out, c)
    ∧ ∀ v c1,
        put 1 v c = Done c1
        ∨ (1%Z ∈ DList.keys (dll c) ∧ get 1 c = Done (v, c1)) →
        ∃ c2, put 3 30 c1 = Done c2 ∧ 1%Z ∈ DList.keys (dll c2).
Proof.
  apply (recently_used_survives 2 [Put 1 10; Put 2 20] 1 3 30).
  unfold INT_MAX. lia.
Defined.

Section lru_edges.
Implicit Types (c : LRUCache) (key value capacity : Z) (ops : list lru_op).

Lemma lru_apply_get_new (out : list Z) key capacity :
  lru_apply (Done (out, LRU_new capacity)) (Get key)
  = Done (out ++ [NOT_FOUND], LRU_new capacity).
Proof.
  unfold lru_apply. simpl. by rewrite get_miss_eq by apply lookup_empty.
Qed.

Lemma lru_apply_put_zero (out : list Z) key value :
  lru_apply (Done (out, LRU_new 0)) (Put key value) = Undefined back_of_empty.
Proof.
  unfold lru_apply. simpl.
  by rewrite put_miss_empty_full by (done || apply lookup_empty).
Qed.

Lemma zero_run_gets ops (out : list Z) :
  Forall (λ o, ∃ key, o = Get key) ops →
  fold_left lru_apply ops (Done (out, LRU_new 0))
  = Done (out ++ replicate (length ops) NOT_FOUND, LRU_new 0).
Proof.
  revert out. induction ops as [|o ops IH]; intros out Hall.
  { simpl. by rewrite app_nil_r. }
  apply Forall_cons in Hall as [[key ->] Hall]. cbn [fold_left].
  rewrite lru_apply_get_new, (IH _ Hall). simpl. by rewrite <-app_assoc.
Qed.

Lemma zero_run_put ops (out : list Z) :
  Exists (λ o, ∃ key value, o = Put key value) ops →
  fold_left lru_apply ops (Done (out, LRU_new 0)) = Undefined back_of_empty.
Proof.
  revert out. induction ops as [|o ops IH]; intros out Hex.
  { by apply Exists_nil in Hex. }
  destruct o as [key|key value]; cbn [fold_left].
  - rewrite lru_apply_get_new. apply IH.
    apply Exists_cons in Hex as [(? & ? & ?)|?]; done.
  - rewrite lru_apply_put_zero. apply lru_run_undefined.
Qed.

(** What a run with a negative capacity keeps: the structure, every key
    that was put, and no more entries than operations. *)
Lemma negative_run capacity ops :
  (capacity < 0)%Z → (Z.of_nat (length ops) ≤ INT_MAX)%Z →
  ∃ out c, lru_run ops (LRU_new capacity) = Done (out, c)
    ∧ lru_wf c ∧ cap c = capacity
    ∧ length (dll c) ≤ length ops
    ∧ ∀ key value, Put key value ∈ ops → key ∈ DList.keys (dll c).
Proof.
  intros Hc. induction ops as [|o ops IH] using rev_ind; intros Hlen.
  { exists [], (LRU_new capacity).
    split_and!; [done|apply LRU_new_wf|done|done|].
    by intros ?? ?%elem_of_nil. }
  rewrite length_app in Hlen. simpl in Hlen.
  destruct IH as (out & c & E & Hwf & Ecap & Hl & Hkeys); [lia|].
  rewrite lru_run_snoc, E, length_app. simpl.
  destruct o as [key|key value]; simpl.
  - destruct (get_wf c key Hwf) as (v & c' & -> & Hwf' & Ec' & Hp). simpl.
    exists (out ++ [v]), c'. split_and!; [done|done|congruence| |].
    + rewrite Hp. lia.
    + intros k v' [Hin|Hin]%elem_of_app.
      * unfold DList.keys. rewrite Hp. by eapply Hkeys.
      * by apply list_elem_of_singleton in Hin.
  - assert (¬ at_capacity c) as Hroom.
    { unfold at_capacity. rewrite to_int_small by lia. lia. }
    destruct (put_refines c key value Hwf) as (c' & Ep & Hwf' & Ec' & He);
      [done|].
    destruct (put_wf c key value Hwf) as (c'' & Ep' & _ & _ & Hl'); [done|].
    rewrite Ep in Ep'. injection Ep' as <-. rewrite Ep. simpl.
    exists out, c'. split_and!; [done|done|congruence|lia|].
    intros k v' Hin. rewrite keys_entries. fold (entries c'). rewrite He.
    unfold assoc_put. rewrite entries_length.
    rewrite decide_False by done.
    assert (k = key ∨ k ≠ key ∧ k ∈ (entries c).*1) as [->|[Hne Hk]].
    { destruct (decide (k = key)) as [|Hne]; [by left|right].
      split; [done|]. apply elem_of_app in Hin as [Hin|Hin].
      - unfold entries. rewrite <-keys_entries. by eapply Hkeys.
      - apply list_elem_of_singleton in Hin. congruence. }
    + destruct (assoc_find key (entries c)); csimpl; by left.
    + destruct (assoc_find key (entries c)); csimpl; right; [|done].
      by apply assoc_drop_keys.
Qed.
End lru_edges.

(** X12: in a cache constructed with a capacity other than 0, [get] changes
    only the order of use: it returns the value that the recency list holds
    for the key, or [-1], and leaves the index, the capacity and the set of
    entries as they are. *)
Theorem get_keeps_contents (capacity : Z) (ops : list lru_op) (key : Z) :
  capacity ≠ 0%Z →
  ∃ out c c', lru_run ops (LRU_new capacity) = Done (out, c)
    ∧ get key c = Done (default NOT_FOUND (assoc_find key (entries c)), c')
    ∧ mp c' = mp c ∧ cap c' = cap c
    ∧ entries c' ≡ₚ entries c.
Proof.
  intros Hc.
  destruct (lru_run_ok capacity ops Hc) as (out & c & E & Hwf & _ & _).
  destruct (get_refines c key Hwf) as (c' & Eg & _ & Ec & Em & _).
  destruct (get_wf c key Hwf) as (v & c'' & Eg' & _ & _ & Hp).
  rewrite Eg in Eg'. injection Eg' as _ <-.
  exists out, c, c'. split_and!; [done| |done..|].
  - rewrite Eg. unfold assoc_get. by destruct (assoc_find key (entries c)).
  - unfold entries. by rewrite Hp.
Qed.

Lemma get_keeps_contents_witness :
  ∃ out c c', lru_run [Put 1 10; Put 2 20] (LRU_new 2) = Done (out, c)
    ∧ get 1 c = Done (default NOT_FOUND (assoc_find 1 (entries c)), c')
    ∧ mp c' = mp c ∧ cap c' = cap c
    ∧ entries c' ≡ₚ entries c.
Proof. apply (get_keeps_contents 2 [Put 1 10; Put 2 20] 1). lia. Defined.

(** X13: a cache constructed with capacity 0 can hold nothing: a run of
    [get]s returns [-1] every time and leaves the cache empty, and a run
    with a [put] in it takes [back()] of the empty list. *)
Theorem capacity_zero_runs (ops : list lru_op) :
  (Forall (λ o, ∃ key, o = Get key) ops →
   lru_run ops (LRU_new 0)
   = Done (replicate (length ops) NOT_FOUND, LRU_new 0))
  ∧ (Exists (λ o, ∃ key value, o = Put key value) ops →
     lru_run ops (LRU_new 0) = Undefined back_of_empty).
Proof.
  split; intros H.
  - apply (zero_run_gets ops [] H).
  - apply (zero_run_put ops [] H).
Qed.

Lemma capacity_zero_runs_witness :
  lru_run [Get 1; Put 1 10; Get 1] (LRU_new 0) = Undefined back_of_empty.
Proof.
  apply (proj2 (capacity_zero_runs [Get 1; Put 1 10; Get 1])).
  apply Exists_cons_tl, Exists_cons_hd. by exists 1%Z, 10%Z.
Defined.

(** X14: a negative capacity switches eviction off: as long as the run has
    at most [INT_MAX] operations, it stays within defined behaviour, every
    key that was ever [put] is still cached at its end, and the list has
    grown to at most one entry for each operation. *)
Theorem negative_capacity_never_evicts (capacity : Z) (ops : list lru_op) :
  (capacity < 0)%Z → (Z.of_nat (length ops) ≤ INT_MAX)%Z →
  ∃ out c, lru_run ops (LRU_new capacity) = Done (out, c)
    ∧ length (dll c) ≤ length ops
    ∧ ∀ key value, Put key value ∈ ops → key ∈ DList.keys (dll c).
Proof.
  intros Hc Hlen.
  destruct (negative_run capacity ops Hc Hlen) as (out & c & E & _ & _ & Hl & Hk).
  by exists out, c.
Qed.

Lemma negative_capacity_never_evicts_witness :
  ∃ out c, lru_run [Put 1 10; Put 2 20; Put 3 30] (LRU_new (-1)) = Done (out, c)
    ∧ length (dll c) ≤ 3
    ∧ ∀ key value,
        Put key value ∈ [Put 1 10; Put 2 20; Put 3 30] →
        key ∈ DList.keys (dll c).
Proof.
  apply (negative_capacity_never_evicts (-1) [Put 1 10; Put 2 20; Put 3 30]).
  - lia.
  - unfold INT_MAX. simpl. lia.
Defined.



(** ** Prefix search *)

Section string_order.
Implicit Types (a b c p s : string).

Lemma ascii_compare_refl (x : Ascii.ascii) : Ascii.compare x x = Eq.
Proof. unfold Ascii.compare. apply N.compare_refl. Qed.

Lemma ascii_compare_lt_trans (x y z : Ascii.ascii) :
  Ascii.compare x y = Lt → Ascii.compare y z = Lt → Ascii.compare x z = Lt.
Proof. unfold Ascii.compare. rewrite !N.compare_lt_iff. lia. Qed.

Lemma str_compare_refl a : String.compare a a = Eq.
Proof.
  induction a as [|x a IH]; simpl; [done|]. by rewrite ascii_compare_refl.
Qed.

Lemma str_compare_lt_trans a b c :
  String.compare a b = Lt → String.compare b c = Lt → String.compare a c = Lt.
Proof.
  revert b c. induction a as [|x a IH]; intros [|y b] [|z c]; simpl; try done.
  destruct (Ascii.compare x y) eqn:Exy; [|intros _|done].
  - apply Ascii.compare_eq_iff in Exy as ->.
    destruct (Ascii.compare y z); [apply IH|done..].
  - destruct (Ascii.compare y z) eqn:Eyz; [|intros _|done].
    + apply Ascii.compare_eq_iff in Eyz as <-. by rewrite Exy.
    + by rewrite (ascii_compare_lt_trans _ _ _ Exy Eyz).
Qed.

Lemma str_le_alt a b :
  str_le a b ↔ String.compare a b = Lt ∨ a = b.
Proof.
  unfold str_le, str_lt, String.ltb. rewrite (String.compare_antisym b a).
  destruct (String.compare a b) eqn:E; simpl.
  - apply String.compare_eq_iff in E. split; [by right|done].
  - split; [by left|done].
  - split; [done|]. intros [?| ->]; [done|].
    by rewrite str_compare_refl in E.
Qed.

Lemma str_le_lt_trans a b p :
  str_le a b → str_lt b p = true → str_lt a p = true.
Proof.
  intros [Hab| ->]%str_le_alt; [|done].
  unfold str_lt, String.ltb.
  destruct (String.compare b p) eqn:E; [done| |done]. intros _.
  by rewrite (str_compare_lt_trans _ _ _ Hab E).
Qed.

Lemma starts_with_prefix p s : starts_with p s = String.prefix p s.
Proof.
  unfold starts_with. destruct (String.prefix p s) eqn:E.
  - apply bool_decide_eq_true, String.prefix_correct, E.
  - apply bool_decide_eq_false. intros H%String.prefix_correct. congruence.
Qed.

(** A string is not below its prefixes. *)
Lemma prefix_not_lt p s : String.prefix p s = true → str_lt s p = false.
Proof.
  unfold str_lt, String.ltb.
  revert s. induction p as [|x p IH]; intros [|y s]; simpl; try done.
  destruct (Ascii.ascii_dec x y) as [->|]; [|done].
  rewrite ascii_compare_refl. apply IH.
Qed.

(** Between a prefix and a string that starts with it, every string starts
    with it. *)
Lemma prefix_between p s s' :
  str_lt s p = false → str_lt s' s = false → String.prefix p s' = true →
  String.prefix p s = true.
Proof.
  unfold str_lt, String.ltb.
  revert s s'. induction p as [|x p IH]; intros [|y s] [|z s']; simpl;
    try done.
  destruct (Ascii.ascii_dec x z) as [<-|]; [|done].
  rewrite (Ascii.compare_antisym y x).
  destruct (Ascii.compare x y) eqn:Exy; simpl; [|done..].
  apply Ascii.compare_eq_iff in Exy as ->.
  destruct (Ascii.ascii_dec y y); [|done]. apply IH.
Qed.
End string_order.

Section prefix_search_facts.
Implicit Types (dict l : list string) (p s : string).

Lemma dict_sorted_lookup dict i j a b :
  dict_sorted dict → i < j → dict !! i = Some a → dict !! j = Some b →
  str_le a b.
Proof.
  intros Hs. revert i j.
  induction Hs as [|x l Hl IH Hx]; intros i j Hij Ha Hb; [done|].
  destruct j as [|j]; [lia|]. simpl in Hb. destruct i as [|i]; simpl in Ha.
  - injection Ha as ->.
    eapply (Forall_forall (str_le a) l); [done|].
    by eapply list_elem_of_lookup_2.
  - apply (IH i j); [lia|done..].
Qed.

(** The binary search keeps the entries below [p] to the left of the range
    and the others to its right, and ends when the range is empty. *)
Lemma lower_bound_loop_spec fuel dict p first len :
  dict_sorted dict → len ≤ fuel → first + len ≤ length dict →
  (∀ i s, i < first → dict !! i = Some s → str_lt s p = true) →
  (∀ i s, first + len ≤ i → dict !! i = Some s → str_lt s p = false) →
  let r := lower_bound_loop fuel dict p first len in
  first ≤ r ≤ first + len
  ∧ (∀ i s, i < r → dict !! i = Some s → str_lt s p = true)
  ∧ (∀ i s, r ≤ i → dict !! i = Some s → str_lt s p = false).
Proof.
  intros Hs. revert first len.
  induction fuel as [|fuel IH]; intros first len Hfuel Hlen Hlo Hhi;
    cbv zeta; cbn [lower_bound_loop].
  { case_decide; [lia|]. split_and!; [lia..|done|].
    intros i s Hi. apply Hhi. lia. }
  case_decide as Hpos.
  2:{ split_and!; [lia..|done|]. intros i s Hi. apply Hhi. lia. }
  assert (len `div` 2 < len) as Hhalf by (apply Nat.div_lt; lia).
  destruct (lookup_lt_is_Some_2 dict (first + len `div` 2)) as [m Hm]; [lia|].
  rewrite Hm. destruct (str_lt m p) eqn:Hmp.
  - destruct (IH (first + len `div` 2 + 1) (len - len `div` 2 - 1))
      as (Hr & Hlo' & Hhi'); [lia|lia| | |].
    + intros i s Hi Hi'.
      destruct (decide (i = first + len `div` 2)) as [->|Hne].
      { by simplify_eq. }
      eapply str_le_lt_trans; [|exact Hmp].
      by apply (dict_sorted_lookup dict i (first + len `div` 2)); [|lia|..].
    + intros i s Hi. apply Hhi. lia.
    + split_and!; [lia..|done|done].
  - destruct (IH first (len `div` 2)) as (Hr & Hlo' & Hhi'); [lia|lia|done| |].
    + intros i s Hi Hi'.
      destruct (decide (i = first + len `div` 2)) as [->|Hne].
      { by simplify_eq. }
      destruct (str_lt s p) eqn:Hsp; [|done].
      rewrite <-Hmp. symmetry.
      eapply str_le_lt_trans; [|exact Hsp].
      by apply (dict_sorted_lookup dict (first + len `div` 2) i); [|lia|..].
    + split_and!; [lia..|done|done].
Qed.

Lemma lower_bound_spec dict p :
  dict_sorted dict →
  lower_bound dict p ≤ length dict
  ∧ Forall (λ s, str_lt s p = true) (take (lower_bound dict p) dict)
  ∧ Forall (λ s, str_lt s p = false) (drop (lower_bound dict p) dict).
Proof.
  intros Hs. unfold lower_bound.
  destruct (lower_bound_loop_spec (length dict) dict p 0 (length dict) Hs)
    as (Hr & Hlo & Hhi); [lia..| | |].
  { intros i s Hi. lia. }
  { intros i s Hi Hi'. apply lookup_lt_Some in Hi'. lia. }
  split_and!; [lia| |].
  - apply Forall_lookup. intros i s Hi.
    pose proof (lookup_lt_Some _ _ _ Hi) as Hlt. rewrite length_take in Hlt.
    rewrite lookup_take_lt in Hi by lia. eapply Hlo; [|done]. lia.
  - apply Forall_lookup. intros i s Hi. rewrite lookup_drop in Hi.
    eapply Hhi; [|done]. lia.
Qed.

Lemma filter_none (P : string → Prop) `{!∀ s, Decision (P s)} l :
  Forall (λ s, ¬ P s) l → filter P l = [].
Proof.
  induction 1 as [|s l Hs _ IH]; [done|].
  by rewrite filter_cons_False.
Qed.

(** The loop stops at an entry from which on nothing starts with [p]. *)
Lemma collect_sorted p l :
  dict_sorted l → Forall (λ s, str_lt s p = false) l →
  collect p l = filter (λ s, starts_with p s = true) l.
Proof.
  induction 1 as [|s l Hl IH Hs]; intros Hge; [done|].
  apply Forall_cons in Hge as [Hsp Hge]. simpl.
  destruct (starts_with p s) eqn:Hp.
  - rewrite filter_cons_True by done. by rewrite IH.
  - rewrite filter_cons_False by congruence.
    symmetry. apply filter_none.
    apply Forall_forall. intros s' Hs' Hp'.
    rewrite starts_with_prefix in Hp, Hp'.
    rewrite (prefix_between p s s') in Hp; [done..| |done].
    by apply (Forall_forall (str_le s) l).
Qed.

(** The loop takes entries up to the first one that does not start with
    [p]. *)
Lemma collect_run p l :
  ∃ rest, l = collect p l ++ rest
    ∧ ∀ s, head rest = Some s → starts_with p s = false.
Proof.
  induction l as [|s l (rest & IH & Hrest)]; [by exists []|]. simpl.
  destruct (starts_with p s) eqn:E.
  - exists rest. split; [simpl; by f_equal|done].
  - exists (s :: l). split; [done|]. simpl. by intros ? [= <-].
Qed.

(** On a partitioned range the binary search ends at the partition
    point. *)
Lemma lower_bound_loop_partition fuel dict p n first len :
  Forall (λ s, str_lt s p = true) (take n dict) →
  Forall (λ s, str_lt s p = false) (drop n dict) →
  len ≤ fuel → first + len ≤ length dict → first ≤ n ≤ first + len →
  lower_bound_loop fuel dict p first len = n.
Proof.
  intros Hlo Hhi. revert first len.
  induction fuel as [|fuel IH]; intros first len Hfuel Hlen Hn;
    cbn [lower_bound_loop].
  { case_decide; lia. }
  case_decide as Hpos; [|lia].
  assert (len `div` 2 < len) as Hhalf by (apply Nat.div_lt; lia).
  destruct (lookup_lt_is_Some_2 dict (first + len `div` 2)) as [m Hm]; [lia|].
  rewrite Hm. destruct (str_lt m p) eqn:Hmp.
  - apply IH; [lia..|].
    destruct (decide (first + len `div` 2 < n)) as [|Hge]; [lia|].
    assert (drop n dict !! (first + len `div` 2 - n) = Some m) as Hd.
    { rewrite lookup_drop, <-Hm. f_equal. lia. }
    apply (Forall_lookup_1 _ _ _ _ Hhi) in Hd. congruence.
  - apply IH; [lia..|].
    destruct (decide (n ≤ first + len `div` 2)) as [|Hlt]; [lia|].
    assert (take n dict !! (first + len `div` 2) = Some m) as Ht
      by (by rewrite lookup_take_lt by lia).
    apply (Forall_lookup_1 _ _ _ _ Hlo) in Ht. congruence.
Qed.

Lemma collect_starts p l : Forall (λ s, starts_with p s = true) (collect p l).
Proof.
  induction l as [|s l IH]; simpl; [done|].
  destruct (starts_with p s) eqn:E; by constructor.
Qed.
End prefix_search_facts.

(** X16: on a dictionary in ascending order, [lower_bound] returns a
    position within the dictionary such that every entry before it is below
    [p] and no entry from it on is. *)
Theorem lower_bound_partitions (dict : list string) (p : string) :
  dict_sorted dict →
  lower_bound dict p ≤ length dict
  ∧ Forall (λ s, str_lt s p = true) (take (lower_bound dict p) dict)
  ∧ Forall (λ s, str_lt s p = false) (drop (lower_bound dict p) dict).
Proof. apply lower_bound_spec. Qed.

(** X17: on a dictionary in ascending order, [prefix_search] returns the
    entries that start with [p], all of them and no other, in the order of
    the dictionary. *)
Theorem prefix_search_complete (dict : list string) (p : string) :
  dict_sorted dict →
  prefix_search dict p = filter (λ s, starts_with p s = true) dict.
Proof.
  intros Hs. destruct (lower_bound_spec dict p Hs) as (_ & Hlo & Hhi).
  unfold prefix_search.
  rewrite <-(take_drop (lower_bound dict p) dict) at 3.
  rewrite filter_app, filter_none.
  - simpl. apply collect_sorted; [|done].
    unfold dict_sorted in *.
    rewrite <-(take_drop (lower_bound dict p) dict) in Hs.
    by apply StronglySorted_app_1_r in Hs.
  - eapply Forall_impl; [exact Hlo|]. intros s Hlt Hp. simpl in *.
    rewrite starts_with_prefix in Hp. apply prefix_not_lt in Hp. congruence.
Qed.

(** X18: on every dictionary that meets the requirement of [lower_bound],
    in ascending order or not, [prefix_search] returns a run of consecutive
    entries, each of which starts with [p]: the run begins where the entries
    below [p] end, and ends before the first entry that does not start with
    [p]. *)
Theorem prefix_search_partitioned (dict : list string) (p : string) :
  partitioned dict p →
  Forall (λ s, starts_with p s = true) (prefix_search dict p)
  ∧ ∃ before after,
      dict = before ++ prefix_search dict p ++ after
      ∧ Forall (λ s, str_lt s p = true) before
      ∧ Forall (λ s, str_lt s p = false) (prefix_search dict p ++ after)
      ∧ ∀ s, head after = Some s → starts_with p s = false.
Proof.
  intros (n & Hn & Hlo & Hhi). unfold prefix_search, lower_bound.
  rewrite (lower_bound_loop_partition _ dict p n 0 (length dict) Hlo Hhi)
    by lia.
  split; [apply collect_starts|].
  destruct (collect_run p (drop n dict)) as (rest & E & Hrest).
  exists (take n dict), rest. split_and!; [|done| |done].
  - by rewrite <-E, take_drop.
  - by rewrite <-E.
Qed.

Lemma prefix_search_partitioned_witness :
  Forall (λ s, starts_with "c" s = true)
    (prefix_search ["b"; "a"; "cb"; "ca"; "d"]%string "c").
Proof.
  apply (prefix_search_partitioned ["b"; "a"; "cb"; "ca"; "d"]%string "c").
  exists 2. split; [simpl; lia|]. split; repeat constructor.
Defined.

(** ** Top-K frequent words *)

Section top_k_facts.
Implicit Types (a b c : string * Z) (w s : string) (words : list string)
  (v : list (string * Z)) (K : Z).

Lemma str_lt_irrefl s : str_lt s s = false.
Proof. unfold str_lt, String.ltb. by rewrite str_compare_refl. Qed.

Lemma str_le_trans s1 s2 s3 : str_le s1 s2 → str_le s2 s3 → str_le s1 s3.
Proof.
  rewrite !str_le_alt. intros [H1| ->] [H2| ->]; eauto.
  left. by eapply str_compare_lt_trans.
Qed.

Lemma str_le_total s1 s2 : str_le s1 s2 ∨ str_le s2 s1.
Proof.
  rewrite !str_le_alt. destruct (String.compare s1 s2) eqn:E.
  - apply String.compare_eq_iff in E. by eauto.
  - by eauto.
  - right. left. by rewrite String.compare_antisym, E.
Qed.

Lemma str_le_antisym s1 s2 : str_le s1 s2 → str_le s2 s1 → s1 = s2.
Proof.
  rewrite !str_le_alt. intros [H1|?] [H2|?]; try done.
  rewrite String.compare_antisym, H1 in H2. done.
Qed.

(** What [cmp] decides. *)
Lemma cmp_le_alt a b :
  cmp_le a b ↔ (b.2 < a.2)%Z ∨ (a.2 = b.2 ∧ str_le a.1 b.1).
Proof.
  unfold cmp_le, cmp, str_le. case_decide as Hne.
  - rewrite Z.ltb_ge. split; [lia|]. intros [?|[? _]]; [lia|congruence].
  - assert (b.2 = a.2) as E by (destruct (decide (b.2 = a.2)); [done|tauto]).
    split; [by right|]. intros [?|[_ ?]]; [lia|done].
Qed.

Global Instance cmp_le_trans : Transitive cmp_le.
Proof.
  intros a b c. rewrite !cmp_le_alt.
  intros [?|[? ?]] [?|[? ?]]; try (left; lia).
  right. split; [lia|]. by eapply str_le_trans.
Qed.

Global Instance cmp_le_total : Total cmp_le.
Proof.
  intros a b. rewrite !cmp_le_alt.
  destruct (Z.lt_trichotomy a.2 b.2) as [?|[?|?]]; [by eauto..| |by eauto].
  destruct (str_le_total a.1 b.1); [left|right]; right; by eauto.
Qed.

Global Instance cmp_le_antisym : AntiSymm (=) cmp_le.
Proof.
  intros [s1 n1] [s2 n2]. rewrite !cmp_le_alt. simpl.
  intros [?|[? ?]] [?|[? ?]]; try lia.
  f_equal; [by apply str_le_antisym|done].
Qed.

(** Two different entries are ordered by [cmp], one way only. *)
Lemma cmp_le_strict a b : cmp_le a b → a ≠ b → cmp a b = true.
Proof.
  intros Hab Hne. destruct (cmp a b) eqn:E; [done|].
  destruct Hne. by apply (anti_symm cmp_le).
Qed.

Lemma count_words_snoc words s :
  count_words (words ++ [s]) = count_word (count_words words) s.
Proof. unfold count_words. by rewrite fold_left_app. Qed.

Lemma occurrences_snoc w words s :
  occurrences w (words ++ [s])
  = occurrences w words + (if decide (s = w) then 1 else 0).
Proof.
  unfold occurrences. rewrite filter_app, length_app. f_equal.
  rewrite filter_cons, filter_nil. by case_decide.
Qed.

(** The map holds, for every word read, the number of its occurrences. *)
Lemma count_words_lookup words w :
  count_words words !! w
  = if decide (occurrences w words = 0) then None
    else Some (Z.of_nat (occurrences w words)).
Proof.
  induction words as [|s words IH] using rev_ind; [done|].
  rewrite count_words_snoc, occurrences_snoc. unfold count_word.
  destruct (decide (s = w)) as [->|Hne].
  - rewrite lookup_insert_eq, IH.
    repeat case_decide; try lia; simpl; f_equal; lia.
  - rewrite lookup_insert_ne, IH by done.
    by rewrite Nat.add_0_r.
Qed.

Lemma merge_sort_cmp_unique v v' :
  v ≡ₚ v' → merge_sort cmp_le v = merge_sort cmp_le v'.
Proof.
  intros Hp. apply (StronglySorted_unique cmp_le).
  - apply StronglySorted_merge_sort; apply _.
  - apply StronglySorted_merge_sort; apply _.
  - by rewrite !merge_sort_Permutation.
Qed.

Lemma top_k_of_perm v v' K : v ≡ₚ v' → top_k_of v K = top_k_of v' K.
Proof.
  intros Hp. unfold top_k_of.
  by rewrite (merge_sort_cmp_unique v v' Hp), (Permutation_length Hp).
Qed.

Lemma top_k_of_prefix v K :
  ∃ rest, merge_sort cmp_le v = top_k_of v K ++ rest.
Proof.
  unfold top_k_of. case_decide.
  - eexists. by rewrite take_drop.
  - exists []. by rewrite app_nil_r.
Qed.

Lemma top_k_of_length v K :
  length (top_k_of v K)
  = if decide (0 ≤ K < Z.of_nat (length v))%Z then Z.to_nat K else length v.
Proof.
  unfold top_k_of. case_decide.
  - rewrite length_take, merge_sort_Permutation. lia.
  - by rewrite merge_sort_Permutation.
Qed.

(** In the arrangement of entries without repetition, [cmp] puts every
    entry before the ones that follow it. *)
Lemma sorted_cmp_strict v :
  NoDup v → StronglySorted (λ a b, cmp a b = true) (merge_sort cmp_le v).
Proof.
  intros Hnd.
  assert (NoDup (merge_sort cmp_le v)) as Hnd'
    by (by rewrite merge_sort_Permutation).
  assert (StronglySorted cmp_le (merge_sort cmp_le v)) as Hs
    by (apply StronglySorted_merge_sort; apply _).
  induction Hs as [|a l Hl IH Ha]; [constructor|].
  apply NoDup_cons in Hnd' as [Hin Hnd'].
  constructor; [by apply IH|].
  apply Forall_forall. intros b Hb. apply cmp_le_strict.
  - by apply (Forall_forall (cmp_le a) l).
  - intros ->. done.
Qed.
End top_k_facts.

Section top_k_results.
Implicit Types (a b : string * Z) (w s : string) (words : list string)
  (K : Z).

Lemma occurrences_pos w words : 0 < occurrences w words ↔ w ∈ words.
Proof.
  unfold occurrences. split.
  - intros Hpos. destruct (filter _ words) as [|s l] eqn:E; [simpl in *; lia|].
    assert (s ∈ filter (λ s, s = w) words) as Hin by (rewrite E; left).
    by apply list_elem_of_filter in Hin as [-> ?].
  - intros Hin.
    assert (w ∈ filter (λ s, s = w) words) as Hin'
      by (by apply list_elem_of_filter).
    destruct (filter _ words); [by apply elem_of_nil in Hin'|simpl; lia].
Qed.

Lemma count_words_entry words w n :
  (w, n) ∈ map_to_list (count_words words)
  ↔ n = Z.of_nat (occurrences w words) ∧ w ∈ words.
Proof.
  rewrite elem_of_map_to_list, count_words_lookup, <-occurrences_pos.
  case_decide; split; try done; try lia.
  - intros [= <-]. split; [done|lia].
  - by intros [-> _].
Qed.

Lemma count_words_keys words :
  (map_to_list (count_words words)).*1 ≡ₚ remove_dups words.
Proof.
  apply NoDup_Permutation;
    [apply NoDup_fst_map_to_list|apply NoDup_remove_dups|].
  intros w. rewrite elem_of_remove_dups, list_elem_of_fmap. split.
  - intros ([w' n] & -> & Hin). by apply count_words_entry in Hin as [_ ?].
  - intros Hin. exists (w, Z.of_nat (occurrences w words)).
    split; [done|]. by apply count_words_entry.
Qed.

Lemma top_k_sorted_whole words K :
  ∃ rest,
    merge_sort cmp_le (map_to_list (count_words words))
    = top_k words K ++ rest.
Proof. apply top_k_of_prefix. Qed.
End top_k_results.

(** Every line of [top_k] holds one of the words counted and the number of
    times it was counted, and no word comes twice. *)
Lemma top_k_counts (words : list string) (K : Z) :
  (∀ w n, (w, n) ∈ top_k words K →
     w ∈ words ∧ n = Z.of_nat (occurrences w words))
  ∧ NoDup (top_k words K).*1.
Proof.
  destruct (top_k_sorted_whole words K) as [rest E].
  set (v := map_to_list (count_words words)) in *. split.
  - intros w n Hin.
    assert ((w, n) ∈ v) as Hv.
    { rewrite <-(merge_sort_Permutation cmp_le v), E. set_solver. }
    apply count_words_entry in Hv. tauto.
  - assert (NoDup (top_k words K ++ rest).*1) as Hnd.
    { rewrite <-E, merge_sort_Permutation. apply NoDup_fst_map_to_list. }
    rewrite fmap_app in Hnd. by apply NoDup_app in Hnd as [? _].
Qed.

(** X20: the lines that [top_k.cpp] prints come in the order of [cmp]: each
    line has a larger count than every later line, or the same count and a
    smaller word; and every word that was read and is not printed comes,
    with its count, after every printed line in that order. *)
Theorem top_k_order (words : list string) (K : Z) :
  StronglySorted (λ a b, cmp a b = true) (top_k words K)
  ∧ ∀ a w, a ∈ top_k words K → w ∈ words → w ∉ (top_k words K).*1 →
      cmp a (w, Z.of_nat (occurrences w words)) = true.
Proof.
  destruct (top_k_sorted_whole words K) as [rest E].
  pose proof (sorted_cmp_strict (map_to_list (count_words words))
                (NoDup_map_to_list _)) as Hs.
  rewrite E in Hs. split; [by apply StronglySorted_app_1_l in Hs|].
  intros a w Ha Hw Hout.
  eapply (StronglySorted_app_1_elem_of _ _ _ _ _ Hs); [done|].
  assert ((w, Z.of_nat (occurrences w words)) ∈ top_k words K ++ rest) as Hin.
  { rewrite <-E, merge_sort_Permutation. by apply count_words_entry. }
  apply elem_of_app in Hin as [Hin|Hin]; [|done].
  destruct Hout. apply list_elem_of_fmap. by eexists (_, _).
Qed.

Lemma top_k_order_witness :
  cmp ("a", 2%Z)%string ("c"%string, Z.of_nat (occurrences "c" ["b"; "a"; "c"; "a"]%string))
  = true.
Proof.
  apply (proj2 (top_k_order ["b"; "a"; "c"; "a"]%string 1) ("a", 2%Z)%string "c"%string).
  - vm_compute. left.
  - apply (bool_decide_unpack _). vm_compute. exact I.
  - apply (bool_decide_unpack _). vm_compute. exact I.
Defined.

(** [top_k] gives [K] lines when [K] is at least 0 and less than the number
    of different words counted, and otherwise one line for each of them. *)
Lemma top_k_size (words : list string) (K : Z) :
  length (top_k words K)
  = if decide (0 ≤ K < Z.of_nat (length (remove_dups words)))%Z
    then Z.to_nat K else length (remove_dups words).
Proof.
  unfold top_k. rewrite top_k_of_length.
  assert (length (map_to_list (count_words words))
          = length (remove_dups words)) as ->; [|done].
  rewrite <-(length_fmap fst). by rewrite count_words_keys.
Qed.

Lemma occurrences_app w l1 l2 :
  occurrences w (l1 ++ l2) = occurrences w l1 + occurrences w l2.
Proof. unfold occurrences. by rewrite filter_app, length_app. Qed.

Lemma occurrences_replicate w n s :
  occurrences w (replicate n s) = if decide (s = w) then n else 0.
Proof.
  unfold occurrences. induction n as [|n IH]; simpl.
  { by case_decide. }
  rewrite filter_cons. case_decide; simpl; by rewrite IH.
Qed.

Lemma occurrences_le w words : occurrences w words ≤ length words.
Proof. apply length_filter. Qed.

Lemma read_words_length N tokens :
  length (read_words N tokens) = Z.to_nat N.
Proof.
  unfold read_words. rewrite length_app, length_take, length_replicate. lia.
Qed.

Lemma read_words_elem w N tokens :
  w ∈ read_words N tokens ↔
  w ∈ take (Z.to_nat N) tokens
  ∨ (w = ""%string ∧ length tokens < Z.to_nat N).
Proof.
  unfold read_words. rewrite elem_of_app, elem_of_replicate.
  split; (intros [?|[? ?]]; [by left|right; split; [done|lia]]).
Qed.

(** X19: with [N] in the range in which [N*2] is a size, every line that
    [top_k.cpp] prints holds one of the first [N] words of the input, or
    the empty string when fewer than [N] words follow; the number on the
    line is the number of times the word occurs among the first [N] words,
    to which the rounds that found no word are added for the empty string;
    it lies between 1 and [N]; no word is printed twice; and when [K] is
    negative or at least [N], each of these strings has its line. *)
Theorem top_k_main_counts (N K : Z) (tokens : list string) :
  (0 ≤ N)%Z → (2 * N ≤ INT_MAX)%Z →
  ∃ out, top_k_main N K tokens = Some out
    ∧ (∀ w n, (w, n) ∈ out →
         (w ∈ take (Z.to_nat N) tokens
          ∨ (w = ""%string ∧ length tokens < Z.to_nat N))
         ∧ n = Z.of_nat
                 (occurrences w (take (Z.to_nat N) tokens)
                  + if decide (w = ""%string)
                    then Z.to_nat N - length tokens else 0)
         ∧ (1 ≤ n ≤ N)%Z)
    ∧ NoDup out.*1
    ∧ ((K < 0 ∨ N ≤ K)%Z →
       ∀ w, w ∈ take (Z.to_nat N) tokens
            ∨ (w = ""%string ∧ length tokens < Z.to_nat N) →
            w ∈ out.*1).
Proof.
  intros HN HN2. exists (top_k (read_words N tokens) K).
  split; [unfold top_k_main; by rewrite decide_True|].
  destruct (top_k_counts (read_words N tokens) K) as [Hin Hnd].
  split_and!; [|done|].
  - intros w n Hw. destruct (Hin w n Hw) as [Hmem ->].
    pose proof (proj2 (occurrences_pos w _) Hmem) as Hpos.
    pose proof (occurrences_le w (read_words N tokens)) as Hle.
    rewrite read_words_length in Hle.
    split; [by apply read_words_elem|]. split; [|lia].
    f_equal. unfold read_words.
    rewrite occurrences_app, occurrences_replicate.
    f_equal. repeat case_decide; congruence.
  - intros HK w Hw. apply read_words_elem in Hw.
    pose proof (count_words_keys (read_words N tokens)) as Hkeys.
    assert (length (remove_dups (read_words N tokens))
            ≤ length (read_words N tokens)) as Hlen.
    { apply submseteq_length, NoDup_submseteq; [apply NoDup_remove_dups|].
      intros x. by rewrite elem_of_remove_dups. }
    rewrite <-(Permutation_length Hkeys), length_fmap,
      read_words_length in Hlen.
    unfold top_k, top_k_of. rewrite decide_False by lia.
    rewrite merge_sort_Permutation, Hkeys. by apply elem_of_remove_dups.
Qed.

Lemma top_k_main_counts_witness :
  ∃ out, top_k_main 3 5 ["a"; "b"]%string = Some out
    ∧ (∀ w n, (w, n) ∈ out →
         (w ∈ take (Z.to_nat 3) ["a"; "b"]%string
          ∨ (w = ""%string ∧ length ["a"; "b"]%string < Z.to_nat 3))
         ∧ n = Z.of_nat
                 (occurrences w (take (Z.to_nat 3) ["a"; "b"]%string)
                  + if decide (w = ""%string)
                    then Z.to_nat 3 - length ["a"; "b"]%string else 0)
         ∧ (1 ≤ n ≤ 3)%Z)
    ∧ NoDup out.*1
    ∧ ((5 < 0 ∨ 3 ≤ 5)%Z →
       ∀ w, w ∈ take (Z.to_nat 3) ["a"; "b"]%string
            ∨ (w = ""%string ∧ length ["a"; "b"]%string < Z.to_nat 3) →
            w ∈ out.*1).
Proof.
  apply (top_k_main_counts 3 5 ["a"; "b"]%string); unfold INT_MAX; lia.
Defined.

(** X21: with [N] in the range in which [N*2] is a size, [top_k.cpp] prints
    [K] lines when [K] is at least 0 and less than the number of different
    strings counted, and otherwise one line for each of them: all of them
    also for a negative [K], none for [K = 0].  The strings counted are the
    first [N] words of the input, and the empty string when fewer than [N]
    words follow. *)
Theorem top_k_main_size (N K : Z) (tokens : list string) :
  (0 ≤ N)%Z → (2 * N ≤ INT_MAX)%Z →
  ∃ out, top_k_main N K tokens = Some out
    ∧ length out
      = (if decide (0 ≤ K
                    < Z.of_nat (length (remove_dups (read_words N tokens))))%Z
         then Z.to_nat K
         else length (remove_dups (read_words N tokens)))
    ∧ ∀ w, w ∈ remove_dups (read_words N tokens) ↔
        w ∈ take (Z.to_nat N) tokens
        ∨ (w = ""%string ∧ length tokens < Z.to_nat N).
Proof.
  intros HN HN2. exists (top_k (read_words N tokens) K).
  split; [unfold top_k_main; by rewrite decide_True|].
  split; [apply top_k_size|].
  intros w. rewrite elem_of_remove_dups. apply read_words_elem.
Qed.

Lemma top_k_main_size_witness :
  ∃ out, top_k_main 3 5 ["a"; "b"]%string = Some out ∧ length out = 3.
Proof.
  destruct (top_k_main_size 3 5 ["a"; "b"]%string) as (out & E & Hlen & _);
    [unfold INT_MAX; lia..|].
  exists out. split; [done|]. rewrite Hlen. vm_compute. reflexivity.
Defined.

(** [top_k.cpp] on the input [3 5 a b]: the third round finds no word and
    counts the empty string. *)
Example top_k_main_short_input :
  top_k_main 3 5 ["a"; "b"]%string
  = Some [("", 1%Z); ("a", 1%Z); ("b", 1%Z)]%string.
Proof. vm_compute. reflexivity. Qed.

(** X22: the lines that [top_k.cpp] prints do not depend on the order in
    which the map of counts is traversed: from every arrangement of its
    entries the selection gives the same lines. *)
Theorem top_k_traversal_order (words : list string) (K : Z)
    (v : list (string * Z)) :
  v ≡ₚ map_to_list (count_words words) → top_k_of v K = top_k words K.
Proof. intros Hp. unfold top_k. by apply top_k_of_perm. Qed.

Lemma top_k_traversal_order_witness :
  top_k_of (reverse (map_to_list (count_words ["b"; "a"; "c"; "a"]%string))) 2
  = top_k ["b"; "a"; "c"; "a"]%string 2.
Proof.
  apply (top_k_traversal_order ["b"; "a"; "c"; "a"]%string 2).
  apply reverse_Permutation.
Defined.

(** [top_k.cpp] on the words [b a c a] with [K = 2]. *)
Example top_k_demo :
  top_k ["b"; "a"; "c"; "a"]%string 2 = [("a", 2%Z); ("b", 1%Z)]%string.
Proof. vm_compute. reflexivity. Qed.

(** The search of [main] in [autocomplete.cpp]. *)
Example prefix_search_demo :
  prefix_search ["apple"; "apply"; "banana"; "band"; "bandana"; "cat"]%string
    "ban"
  = ["banana"; "band"; "bandana"]%string.
Proof. vm_compute. reflexivity. Qed.

Lemma lower_bound_partitions_witness :
  lower_bound ["apple"; "apply"; "banana"; "band"; "bandana"; "cat"]%string "ban"
  ≤ 6.
Proof.
  apply (lower_bound_partitions
           ["apple"; "apply"; "banana"; "band"; "bandana"; "cat"]%string "ban").
  unfold dict_sorted. repeat constructor.
Defined.

Lemma prefix_search_complete_witness :
  prefix_search ["apple"; "apply"; "banana"; "band"; "bandana"; "cat"]%string
    "ban"
  = filter (λ s, starts_with "ban" s = true)
      ["apple"; "apply"; "banana"; "band"; "bandana"; "cat"]%string.
Proof.
  apply (prefix_search_complete
           ["apple"; "apply"; "banana"; "band"; "bandana"; "cat"]%string "ban").
  unfold dict_sorted. repeat constructor.
Defined.
